(** * Port-Folio_Map: the two main.js patch scripts

    A shallow embedding of [update_medical.py] and [update_forvia.py].
    Both scripts read [main.js], run a fixed sequence of [re.sub] calls on
    the text and write the result back.

    - The buffer is a Python [str]: a list of Unicode code points.
    - The regular expressions are kept as the source writes them (raw
      strings) and compiled by [re_compile]; the scripts only use literal
      characters, escaped punctuation, [\s+] and one capturing group around
      the whole pattern.
    - [re.sub] is the leftmost, non-overlapping, greedy scan of Python's
      backtracking matcher.
    - Reading, writing and printing go through a small state-and-exception
      monad over a [world] that holds the file and what was printed.  The
      world holds decoded text: a main.js that cannot be opened makes the
      read raise; a main.js that is not UTF-8, a write that fails and a
      [print] that fails are not part of the model. *)

From Stdlib Require Import Ascii String.
From Stdlib Require Import List Bool Arith NArith Lia Permutation.
Import ListNotations.


(* ################################################################# *)
(** * Part I: the embedding *)

(* ================================================================= *)
(** ** Text *)

(** A code point. *)
Definition char := N.

(** A Python [str]. *)
Definition text := list char.

Definition text_of_string (s : string) : text :=
  map N_of_ascii (list_ascii_of_string s).

(** Line feed, what [\n] denotes in a replacement template. *)
Definition LF : char := 10%N.

(** [str.isspace] on one code point: the class [\s] of a [str] pattern. *)
Definition isspace (c : char) : bool :=
  (((9 <=? c) && (c <=? 13)) || ((28 <=? c) && (c <=? 32))
   || (c =? 133) || (c =? 160) || (c =? 5760)
   || ((8192 <=? c) && (c <=? 8202))
   || (c =? 8232) || (c =? 8233) || (c =? 8239) || (c =? 8287)
   || (c =? 12288))%N.

(* ================================================================= *)
(** ** Compiled patterns and templates *)

(** The pattern syntax the scripts use: a literal character or [\s+]. *)
Inductive item : Type :=
| Lit (c : char)
| WsPlus.

Definition pat := list item.

(** A compiled pattern: its items and whether group 1 encloses them all. *)
Record regex : Type := Regex { grouped : bool; items : pat }.

(** A replacement template: literal characters and group references. *)
Inductive titem : Type :=
| TLit (c : char)
| TRef (g : nat).

Definition template := list titem.

Definition is_alnum (a : ascii) : bool :=
  let n := nat_of_ascii a in
  ((48 <=? n) && (n <=? 57)) || ((65 <=? n) && (n <=? 90))
  || ((97 <=? n) && (n <=? 122)).

Definition is_special (a : ascii) : bool :=
  existsb (Ascii.eqb a) (list_ascii_of_string ".^$*+?{}[]\|()").

(** Items up to the end of the pattern or to an unescaped [)], which is
    left in the remaining input.  Syntax outside the fragment above gives
    [None]. *)
Fixpoint parse_seq (s : list ascii) : option (pat * list ascii) :=
  match s with
  | [] => Some ([], [])
  | ")"%char :: _ => Some ([], s)
  | "\"%char :: "s"%char :: "+"%char :: rest =>
      match parse_seq rest with
      | Some (p, r) => Some (WsPlus :: p, r)
      | None => None
      end
  | "\"%char :: c :: rest =>
      if is_alnum c then None
      else match parse_seq rest with
           | Some (p, r) => Some (Lit (N_of_ascii c) :: p, r)
           | None => None
           end
  | c :: rest =>
      if is_special c then None
      else match parse_seq rest with
           | Some (p, r) => Some (Lit (N_of_ascii c) :: p, r)
           | None => None
           end
  end.

(** [re.compile]: either a plain sequence or one group around all of it. *)
Definition re_compile (src : string) : option regex :=
  match list_ascii_of_string src with
  | "("%char :: body =>
      match parse_seq body with
      | Some (p, [")"%char]) => Some (Regex true p)
      | _ => None
      end
  | body =>
      match parse_seq body with
      | Some (p, []) => Some (Regex false p)
      | _ => None
      end
  end.

Definition is_digit (a : ascii) : bool :=
  let n := nat_of_ascii a in (48 <=? n) && (n <=? 57).

Definition digit_of (a : ascii) : option nat :=
  let n := nat_of_ascii a in
  if (49 <=? n) && (n <=? 57) then Some (n - 48) else None.

(** The template parser of [re.sub]: [\n] is a line feed, [\1]..[\9] a
    group reference (not followed by another digit); other escapes are
    outside the fragment. *)
Fixpoint parse_template (s : list ascii) : option template :=
  match s with
  | [] => Some []
  | "\"%char :: c :: rest =>
      match parse_template rest with
      | Some t =>
          if Ascii.eqb c "n" then Some (TLit LF :: t)
          else match digit_of c, rest with
               | Some g, d :: _ => if is_digit d then None else Some (TRef g :: t)
               | Some g, [] => Some (TRef g :: t)
               | None, _ => None
               end
      | None => None
      end
  | "\"%char :: [] => None
  | c :: rest =>
      match parse_template rest with
      | Some t => Some (TLit (N_of_ascii c) :: t)
      | None => None
      end
  end.

Definition ngroups (r : regex) : nat := if grouped r then 1 else 0.

(** A reference to a group the pattern does not have makes [re.sub]
    raise before it looks at the string. *)
Definition valid_ref (r : regex) (t : titem) : bool :=
  match t with
  | TLit _ => true
  | TRef g => (1 <=? g) && (g <=? ngroups r)
  end.

(** A substitution rule, compiled. *)
Record rule : Type := Rule { rx : regex; tpl : template }.

Definition compile_rule (pattern repl : string) : option rule :=
  match re_compile pattern, parse_template (list_ascii_of_string repl) with
  | Some r, Some t => if forallb (valid_ref r) t then Some (Rule r t) else None
  | _, _ => None
  end.

(* ================================================================= *)
(** ** Matching and substitution *)

(** The backtracking matcher at one position: the length of the match.
    [\s+] is greedy: it first tries to take one more space and gives
    characters back only when the rest of the pattern fails. *)
Fixpoint match_here (p : pat) : text -> option nat :=
  match p with
  | [] => fun _ => Some 0
  | Lit c :: p' => fun s =>
      match s with
      | x :: s' => if (x =? c)%N then option_map S (match_here p' s') else None
      | [] => None
      end
  | WsPlus :: p' =>
      fix run (s : text) : option nat :=
        match s with
        | x :: s' =>
            if isspace x then
              match run s' with
              | Some n => Some (S n)
              | None => option_map S (match_here p' s')
              end
            else None
        | [] => None
        end
  end.

(** The text a template stands for, given the matched text. Every group
    of a compiled rule is group 1, the whole match. *)
Definition expand (t : template) (m : text) : text :=
  flat_map (fun i => match i with TLit c => [c] | TRef _ => m end) t.

(** The scan of [re.sub] with [count=0]: at each position try the
    pattern; a match is replaced and the scan goes on behind it, otherwise
    one character is copied.  An empty match is replaced and the scan
    moves one character on. *)
Fixpoint sub_loop (fuel : nat) (p : pat) (t : template) (s : text) : text :=
  match fuel with
  | 0 => s
  | S fuel' =>
      match s with
      | [] => match match_here p [] with Some _ => expand t [] | None => [] end
      | c :: s' =>
          match match_here p s with
          | Some 0 => expand t [] ++ c :: sub_loop fuel' p t s'
          | Some (S n) =>
              expand t (firstn (S n) s) ++ sub_loop fuel' p t (skipn (S n) s)
          | None => c :: sub_loop fuel' p t s'
          end
      end
  end.

Definition sub (p : pat) (t : template) (s : text) : text :=
  sub_loop (S (length s)) p t s.

Definition apply_rule (r : rule) (s : text) : text :=
  sub (items (rx r)) (tpl r) s.

(** The exceptions of the model. *)
Inductive exn : Type :=
| OSError      (* main.js could not be opened for reading *)
| ReError.     (* [re.sub] rejected the pattern or the template *)

Inductive result (A : Type) : Type :=
| Ok (a : A)
| Raise (e : exn).
Arguments Ok {A} a.
Arguments Raise {A} e.

(** [re.sub(pattern, repl, string)]. *)
Definition re_sub (pattern repl : string) (s : text) : result text :=
  match compile_rule pattern repl with
  | Some r => Ok (apply_rule r s)
  | None => Raise ReError
  end.

(* ================================================================= *)
(** ** The world and the script monad *)

(** What a run can be observed to do. *)
Inductive event : Type :=
| EWrite (data : text)       (* [f.write(content)] on main.js *)
| EPrint (line : string).    (* [print(line)] *)

(** [main_js] is the text of the file as [f.read()] returns it (decoded,
    newlines translated), [None] when the file cannot be opened for
    reading (missing, no permission).  [trace] lists, oldest first, what
    was written to the file and what was printed.

    Limits of the model: the file, when there is one, is taken to be
    valid UTF-8 (on other bytes [f.read()] raises UnicodeDecodeError);
    opening the file for writing, the write itself and [print] are taken
    to succeed (each of them can raise OSError in a real run).  The
    properties below that speak of a whole run are properties of runs in
    which these steps succeed. *)
Record world : Type := World { main_js : option text; trace : list event }.

Definition M (A : Type) : Type := world -> result A * world.

Definition ret {A} (a : A) : M A := fun w => (Ok a, w).

Definition bind {A B} (m : M A) (k : A -> M B) : M B :=
  fun w => match m w with
           | (Ok a, w') => k a w'
           | (Raise e, w') => (Raise e, w')
           end.

Notation "x <- m ;; k" := (bind m (fun x => k))
  (at level 61, m at next level, right associativity).
Notation "m ;;; k" := (bind m (fun _ => k))
  (at level 61, right associativity).

(** An exception of a pure call stops the script. *)
Definition lift {A} (r : result A) : M A := fun w => (r, w).

(** [with open('main.js', 'r', encoding='utf-8') as f: f.read()]. *)
Definition read_main_js : M text :=
  fun w => match main_js w with
           | Some t => (Ok t, w)
           | None => (Raise OSError, w)
           end.

(** [with open('main.js', 'w', encoding='utf-8') as f: f.write(content)],
    on a file that can be written. *)
Definition write_main_js (content : text) : M unit :=
  fun w => (Ok tt, World (Some content) (trace w ++ [EWrite content])).

(** [print(line)], on a standard output that takes it. *)
Definition print (line : string) : M unit :=
  fun w => (Ok tt, World (main_js w) (trace w ++ [EPrint line])).

(* ================================================================= *)
(** ** update_medical.py *)

Module Medical.

(** The four [re.sub] calls, pattern and replacement as written. *)
Definition pattern1 : string :=
  "if \(object\.userData\.type === 'trashTruck' \|\| object\.userData\.type === 'convoyeur' \|\| object\.userData\.type === 'sensorSensei'\)"%string.
Definition replacement1 : string :=
  "if (object.userData.type === 'trashTruck' || object.userData.type === 'convoyeur' || object.userData.type === 'sensorSensei' || object.userData.type === 'medical')"%string.

Definition pattern2 : string :=
  "(\s+if \(object\.userData\.type === 'sensorSensei' && !sensorSenseiModalClosed\) \{\s+showSensorSenseiModal\(\);\s+\})"%string.
Definition replacement2 : string :=
  "\1\n        if (object.userData.type === 'medical' && !medicalModalClosed) {\n          showMedicalModal();\n        }"%string.

Definition pattern3 : string :=
  "(\s+// Reset sensorSensei modal state when navigating to different areas\s+sensorSenseiModalClosed = false;\s+sensorSenseiModalOpened = false;)"%string.
Definition replacement3 : string :=
  "\1\n      \n      // Reset medical modal state when navigating to different areas\n      medicalModalClosed = false;\n      medicalModalOpened = false;"%string.

Definition pattern4 : string :=
  "// Handle objects that don't need camera movement \(trashTruck, convoyeur, sensorSensei\)"%string.
Definition replacement4 : string :=
  "// Handle objects that don't need camera movement (trashTruck, convoyeur, sensorSensei, medical)"%string.

Definition success : string :=
  "Medical integration completed successfully!"%string.

(** The pairs of pattern and replacement, in the order of the calls. *)
Definition rules : list (string * string) :=
  [ (pattern1, replacement1); (pattern2, replacement2);
    (pattern3, replacement3); (pattern4, replacement4) ].

(** The module body. *)
Definition main : M unit :=
  content <- read_main_js ;;
  content <- lift (re_sub pattern1 replacement1 content) ;;
  content <- lift (re_sub pattern2 replacement2 content) ;;
  content <- lift (re_sub pattern3 replacement3 content) ;;
  content <- lift (re_sub pattern4 replacement4 content) ;;
  write_main_js content ;;;
  print success.

End Medical.

(* ================================================================= *)
(** ** update_forvia.py *)

Module Forvia.

Definition pattern1 : string :=
  "(object\.userData\.type === 'trashTruck' \|\| object\.userData\.type === 'convoyeur' \|\| object\.userData\.type === 'sensorSensei' \|\| object\.userData\.type === 'medical')"%string.
Definition replacement1 : string :=
  "object.userData.type === 'trashTruck' || object.userData.type === 'convoyeur' || object.userData.type === 'sensorSensei' || object.userData.type === 'medical' || object.userData.type === 'forviaCAR'"%string.

Definition pattern2 : string :=
  "(\s+if \(object\.userData\.type === 'medical' && !medicalModalClosed\) \{\s+showMedicalModal\(\);\s+\})"%string.
Definition replacement2 : string :=
  "\1\n        if (object.userData.type === 'forviaCAR' && !forviaCarModalClosed) {\n          showForviaCarModal();\n        }"%string.

Definition pattern3 : string :=
  "// Handle objects that don't need camera movement \(trashTruck, convoyeur, sensorSensei, medical\)"%string.
Definition replacement3 : string :=
  "// Handle objects that don't need camera movement (trashTruck, convoyeur, sensorSensei, medical, forviaCAR)"%string.

Definition pattern4 : string :=
  "(\s+// Reset medical modal state when going back to overview\s+medicalModalClosed = false;\s+medicalModalOpened = false;)"%string.
Definition replacement4 : string :=
  "\1\n    \n    // Reset forviaCAR modal state when going back to overview\n    forviaCarModalClosed = false;\n    forviaCarModalOpened = false;"%string.

Definition pattern5 : string :=
  "(\s+// Reset medical modal state when navigating to different areas\s+medicalModalClosed = false;\s+medicalModalOpened = false;)"%string.
Definition replacement5 : string :=
  "\1\n      \n      // Reset forviaCAR modal state when navigating to different areas\n      forviaCarModalClosed = false;\n      forviaCarModalOpened = false;"%string.

Definition success : string :=
  "FORVIA car integration completed successfully!"%string.

(** The pairs of pattern and replacement, in the order of the calls. *)
Definition rules : list (string * string) :=
  [ (pattern1, replacement1); (pattern2, replacement2);
    (pattern3, replacement3); (pattern4, replacement4);
    (pattern5, replacement5) ].

(** [update_forvia_integration()]. *)
Definition update_forvia_integration : M unit :=
  content <- read_main_js ;;
  content <- lift (re_sub pattern1 replacement1 content) ;;
  content <- lift (re_sub pattern2 replacement2 content) ;;
  content <- lift (re_sub pattern3 replacement3 content) ;;
  content <- lift (re_sub pattern4 replacement4 content) ;;
  content <- lift (re_sub pattern5 replacement5 content) ;;
  write_main_js content ;;;
  print success.

(** Run as a script, the module calls the function once. *)
Definition main : M unit := update_forvia_integration.

End Forvia.

(* ================================================================= *)
(** ** What a pattern matches *)

(** [Matches p m]: the text [m], all of it, is matched by [p]. *)
Inductive Matches : pat -> text -> Prop :=
| M_nil : Matches [] []
| M_lit c p m : Matches p m -> Matches (Lit c :: p) (c :: m)
| M_ws_last c p m :
    isspace c = true -> Matches p m -> Matches (WsPlus :: p) (c :: m)
| M_ws_more c p m :
    isspace c = true -> Matches (WsPlus :: p) m ->
    Matches (WsPlus :: p) (c :: m).

#[local] Hint Constructors Matches : core.

(** [t] occurs in [s]. *)
Definition Infix (t s : text) : Prop := exists pre post, s = pre ++ t ++ post.

(** The pattern matches nowhere in [s]. *)
Definition NoMatch (p : pat) (s : text) : Prop :=
  forall k, match_here p (skipn k s) = None.

(* ================================================================= *)
(** ** The cut of the scan *)

(** The scan cuts the text, left to right, into gaps that hold no match
    start and the matches behind them, up to a tail without match. *)
Inductive Scan (p : pat) : text -> list (text * text) -> text -> Prop :=
| Scan_end tail : NoMatch p tail -> Scan p tail [] tail
| Scan_hit gap m rest segs tail :
    (forall k, k < length gap ->
               match_here p (skipn k (gap ++ m ++ rest)) = None) ->
    match_here p (m ++ rest) = Some (length m) ->
    Scan p rest segs tail ->
    Scan p (gap ++ m ++ rest) ((gap, m) :: segs) tail.

(** The text with every match of the cut replaced. *)
Definition replaced (t : template) (segs : list (text * text)) (tail : text)
  : text :=
  flat_map (fun gm => fst gm ++ expand t (snd gm)) segs ++ tail.

(** No match of [p] in [s] meets the window of [l] characters at [a]. *)
Definition Clear (p : pat) (s : text) (a l : nat) : Prop :=
  forall k n, match_here p (skipn k s) = Some n -> k + n <= a \/ a + l <= k.

(** Two matches that overlap end at the same place. *)
Definition SameEnd (p : pat) : Prop :=
  forall s n k n',
    match_here p s = Some n -> k < n ->
    match_here p (skipn k s) = Some n' -> k + n' = n.

(* ================================================================= *)
(** ** Which matches can overlap *)

(** [compat p q]: some text is matched by one of the two patterns and
    begins a match of the other.  (An over-approximation: [false] means
    there is no such text.) *)
Fixpoint compat (p : pat) : pat -> bool :=
  match p with
  | [] => fun _ => true
  | i :: p' =>
      fix compat_q (q : pat) : bool :=
        match q with
        | [] => true
        | j :: q' =>
            match i, j with
            | Lit a, Lit b => if (a =? b)%N then compat p' q' else false
            | WsPlus, Lit b =>
                if isspace b
                then if compat p' q' then true else compat_q q'
                else false
            | Lit a, WsPlus =>
                if isspace a
                then if compat p' q' then true else compat p' q
                else false
            | WsPlus, WsPlus =>
                if compat p' q' then true
                else if compat_q q' then true else compat p' q
            end
        end
  end.

(** [x] is matched by [p] ([full = true]) or begins a match of [p]. *)
Definition Begins (full : bool) (p : pat) (x : text) : Prop :=
  if full then Matches p x else exists y, Matches p (x ++ y).

(** A match of [q] can start inside (or together with) a match of [p]. *)
Definition can_start_in (p q : pat) : bool :=
  existsb (fun j => compat (skipn j p) q) (seq 0 (length p)).

(** No match of one pattern shares a character with a match of the
    other. *)
Definition apart (p q : pat) : bool :=
  negb (can_start_in p q) && negb (can_start_in q p).

(** Every [\s+] is followed by a literal that is not a space: the run of
    spaces it takes is forced. *)
Fixpoint determinate (p : pat) : bool :=
  match p with
  | [] => true
  | Lit _ :: p' => determinate p'
  | WsPlus :: p' =>
      match p' with
      | Lit d :: _ => negb (isspace d) && determinate p'
      | _ => false
      end
  end.

(** Inside a match the pattern can only match again within the leading
    run of spaces. *)
Definition self_apart (p : pat) : bool :=
  determinate p
  && forallb (fun j => negb (compat (skipn j p) p)) (seq 1 (length p - 1)).

(* ================================================================= *)
(** ** Literal text and occurrences *)

(** The pattern that matches exactly the text [x]. *)
Definition lits (x : text) : pat := map Lit x.

(** The pattern matches a piece of [s]. *)
Definition Contains (p : pat) (s : text) : Prop :=
  exists m, Matches p m /\ Infix m s.

Definition hits (p : pat) (s : text) (k : nat) : bool :=
  match match_here p (skipn k s) with Some _ => true | None => false end.

(** The positions of [s] where [p] matches. *)
Definition match_starts (p : pat) (s : text) : list nat :=
  filter (hits p s) (seq 0 (S (length s))).

Definition containsb (p : pat) (s : text) : bool :=
  match match_starts p s with [] => false | _ :: _ => true end.

(** How often the text [x] occurs in [s]. *)
Definition count (x s : text) : nat := length (match_starts (lits x) s).

(** A full match, decided by the matcher. *)
Definition fullmatch (p : pat) (m : text) : bool :=
  match match_here p m with
  | Some n => n =? length m
  | None => false
  end.

(** A run of literals inside a pattern shows in every match. *)
Fixpoint starts_with_lits (x : text) (p : pat) : bool :=
  match x, p with
  | [], _ => true
  | c :: x', Lit d :: p' => if (c =? d)%N then starts_with_lits x' p' else false
  | _, _ => false
  end.

Definition has_lits (x : text) (p : pat) : bool :=
  existsb (fun j => starts_with_lits x (skipn j p)) (seq 0 (S (length p))).

(* ================================================================= *)
(** ** The matches of a text, computed *)

Fixpoint scan_loop (fuel : nat) (p : pat) (gap s : text)
  : list (text * text) * text :=
  match fuel with
  | 0 => ([], rev gap ++ s)
  | S fuel' =>
      match s with
      | [] => ([], rev gap)
      | c :: s' =>
          match match_here p s with
          | Some (S n) =>
              let (segs, tail) := scan_loop fuel' p [] (skipn (S n) s) in
              ((rev gap, firstn (S n) s) :: segs, tail)
          | _ => scan_loop fuel' p (c :: gap) s'
          end
      end
  end.

(** The gaps and matches of the scan of [re.sub], and the tail. *)
Definition scan (p : pat) (s : text) : list (text * text) * text :=
  scan_loop (S (length s)) p [] s.

(* ================================================================= *)
(** ** The cut, said without the matcher *)

(** The pattern matches at the head of [x]. *)
Definition StartsWith (p : pat) (x : text) : Prop :=
  exists m r, x = m ++ r /\ Matches p m.

(** The cut of [re.sub] in terms of what the pattern matches: gaps in
    which the pattern matches at no position, each followed by a match,
    up to a tail that holds no match. *)
Inductive Cut (p : pat) : text -> list (text * text) -> text -> Prop :=
| Cut_end tail : ~ Contains p tail -> Cut p tail [] tail
| Cut_hit gap m rest segs tail :
    (forall k, k < length gap ->
               ~ StartsWith p (skipn k (gap ++ m ++ rest))) ->
    Matches p m ->
    Cut p rest segs tail ->
    Cut p (gap ++ m ++ rest) ((gap, m) :: segs) tail.

(* ================================================================= *)
(** ** The patcher of the specification *)

(** The rules applied from left to right, each to the output of the one
    before; the first exception ends the fold. *)
Definition run_rules (rules : list (string * string)) (s : text)
  : result text :=
  fold_left (fun acc pr =>
               match acc with
               | Ok content => re_sub (fst pr) (snd pr) content
               | Raise e => Raise e
               end)
            rules (Ok s).

(** Read, apply the rules, write back, report. *)
Definition patcher (rules : list (string * string)) (success : string)
  : M unit :=
  content <- read_main_js ;;
  content <- lift (run_rules rules content) ;;
  write_main_js content ;;;
  print success.

(** What a run that gets through leaves behind. *)
Definition written (w : world) (out : text) (success : string) : world :=
  World (Some out) (trace w ++ [EWrite out; EPrint success]).

(* ================================================================= *)
(** ** The nine rules, compiled *)

Definition all_rules : list (string * string) :=
  Medical.rules ++ Forvia.rules.

(** The compiled form of a rule of the scripts. *)
Definition compiled (pr : string * string) : rule :=
  match compile_rule (fst pr) (snd pr) with
  | Some r => r
  | None => Rule (Regex false []) []
  end.

Definition pattern_of (pr : string * string) : pat := items (rx (compiled pr)).

(* ================================================================= *)
(** ** Rules that cannot get in each other's way *)

(** The texts a rule can put for a match, as a pattern: the match with
    the appended block behind it, or the one fixed text. *)
Definition out_pat (pr : string * string) : pat :=
  match tpl (compiled pr) with
  | TRef _ :: t => pattern_of pr ++ lits (expand t [])
  | t => lits (expand t [])
  end.

(** The unordered pairs of a list. *)
Fixpoint pairs {A : Type} (l : list A) : list (A * A) :=
  match l with
  | [] => []
  | a :: r => map (pair a) r ++ pairs r
  end.

(** No match of one rule shares a character with a match of the other
    or with a text the other writes, and neither pattern can overlap
    itself. *)
Definition independent (a b : string * string) : bool :=
  if self_apart (pattern_of a) then
    if self_apart (pattern_of b) then
      if apart (pattern_of a) (pattern_of b) then
        if apart (pattern_of b) (out_pat a)
        then apart (pattern_of a) (out_pat b)
        else false
      else false
    else false
  else false.

(** The order of the rules matters: some reordering of the list (a swap
    of two rules is one) changes what the rules make of some buffer. *)
Definition order_matters (rules : list (string * string)) : Prop :=
  exists rules' buf,
    Permutation rules rules' /\ run_rules rules' buf <> run_rules rules buf.

(* ================================================================= *)
(** ** Texts of main.js used below *)

(** Lines of text, each one behind a line feed. *)
Definition lines (l : list string) : text :=
  flat_map (fun s => LF :: text_of_string s) l.

(** The line that medical rule 1 rewrites. *)
Definition condition_line : text :=
  text_of_string
    "if (object.userData.type === 'trashTruck' || object.userData.type === 'convoyeur' || object.userData.type === 'sensorSensei')".

(** The end of that line once [medical] is added. *)
Definition condition_with_medical : text :=
  text_of_string
    "|| object.userData.type === 'sensorSensei' || object.userData.type === 'medical')".

(** The sensorSensei modal block, as main.js indents it. *)
Definition sensor_block : text :=
  lines [ "        if (object.userData.type === 'sensorSensei' && !sensorSenseiModalClosed) {";
          "          showSensorSenseiModal();";
          "        }" ]%string.

(** The block medical rule 2 appends. *)
Definition medical_block : text :=
  lines [ "        if (object.userData.type === 'medical' && !medicalModalClosed) {";
          "          showMedicalModal();";
          "        }" ]%string.

(** The block forvia rule 2 appends. *)
Definition forvia_block : text :=
  lines [ "        if (object.userData.type === 'forviaCAR' && !forviaCarModalClosed) {";
          "          showForviaCarModal();";
          "        }" ]%string.

(** The sensorSensei reset block. *)
Definition sensor_reset : text :=
  lines [ "      // Reset sensorSensei modal state when navigating to different areas";
          "      sensorSenseiModalClosed = false;";
          "      sensorSenseiModalOpened = false;" ]%string.

(** The block medical rule 3 appends. *)
Definition medical_reset : text :=
  lines [ "      ";
          "      // Reset medical modal state when navigating to different areas";
          "      medicalModalClosed = false;";
          "      medicalModalOpened = false;" ]%string.

(** The blocks forvia rules 4 and 5 append. *)
Definition forvia_reset_overview : text :=
  lines [ "    ";
          "    // Reset forviaCAR modal state when going back to overview";
          "    forviaCarModalClosed = false;";
          "    forviaCarModalOpened = false;" ]%string.

Definition forvia_reset_areas : text :=
  lines [ "      ";
          "      // Reset forviaCAR modal state when navigating to different areas";
          "      forviaCarModalClosed = false;";
          "      forviaCarModalOpened = false;" ]%string.

(** The rules by name. *)
Definition medical1 := (Medical.pattern1, Medical.replacement1).
Definition medical2 := (Medical.pattern2, Medical.replacement2).
Definition medical3 := (Medical.pattern3, Medical.replacement3).
Definition medical4 := (Medical.pattern4, Medical.replacement4).
Definition forvia1 := (Forvia.pattern1, Forvia.replacement1).
Definition forvia2 := (Forvia.pattern2, Forvia.replacement2).
Definition forvia3 := (Forvia.pattern3, Forvia.replacement3).
Definition forvia4 := (Forvia.pattern4, Forvia.replacement4).
Definition forvia5 := (Forvia.pattern5, Forvia.replacement5).

(* ================================================================= *)
(** ** Files and statements used by the properties *)

(** The text a cut stands for: gaps and matches in order, then the tail. *)
Definition uncut (segs : list (text * text)) (tail : text) : text :=
  flat_map (fun gm => fst gm ++ snd gm) segs ++ tail.

(** Two sensorSensei reset blocks with code between them. *)
Definition two_resets : text :=
  sensor_reset ++ lines ["      moveCamera();"%string] ++ sensor_reset
  ++ lines ["    }"%string].


(** A sensorSensei block on one line, behind a single space. *)
Definition sensor_one_line : text :=
  text_of_string
    " if (object.userData.type === 'sensorSensei' && !sensorSenseiModalClosed) { showSensorSenseiModal(); }".

(** A file that holds the old condition line and, further on, the line
    with [medical] already added. *)
Definition old_and_new_condition : text :=
  condition_line ++ [LF] ++ text_of_string Medical.replacement1.

(** A file without any of the texts the scripts look for. *)
Definition plain_js : text :=
  text_of_string "const scene = new THREE.Scene();".

(** The cut of [two_resets]: two matches of medical pattern 3. *)
Definition two_resets_cut : list (text * text) :=
  [ ([], sensor_reset);
    (lines ["      moveCamera();"%string], sensor_reset) ].


(** The file a script leaves behind when it starts from [buf]. *)
Definition file_after (script : M unit) (buf : text) : option text :=
  main_js (snd (script (World (Some buf) []))).

Definition medical_word : text := text_of_string "medical".

(** A file the medical script has not been run on. *)
Definition before_medical : text :=
  lines ["      "%string] ++ condition_line ++ text_of_string " {"
  ++ sensor_block ++ lines ["      }"%string] ++ sensor_reset.

(** The medical block with the forvia block behind it, and the medical
    reset block of the overview with its forvia block, as patterns. *)
Definition medical_then_forvia : pat :=
  pattern_of forvia2 ++ lits forvia_block.


(** The five forvia rules one after the other. *)
Definition forvia_all (s : text) : text :=
  apply_rule (compiled forvia5)
    (apply_rule (compiled forvia4)
       (apply_rule (compiled forvia3)
          (apply_rule (compiled forvia2)
             (apply_rule (compiled forvia1) s)))).

(** A file after the medical script: both modal blocks, both reset
    blocks. *)
Definition after_medical : text :=
  lines ["      if (clicked) {"%string] ++ sensor_block ++ medical_block
  ++ lines ["      }"%string] ++ sensor_reset ++ medical_reset.

(* ================================================================= *)
(** ** Further texts and compositions *)

(** The four medical rules one after the other. *)
Definition medical_all (s : text) : text :=
  apply_rule (compiled medical4)
    (apply_rule (compiled medical3)
       (apply_rule (compiled medical2)
          (apply_rule (compiled medical1) s))).

(** The sensorSensei modal block with the medical block behind it, and
    the sensorSensei reset block with the medical reset behind it, as
    patterns. *)
Definition sensor_then_medical : pat :=
  pattern_of medical2 ++ lits medical_block.



(** The comment that medical rule 4 rewrites, and its two later forms. *)
Definition old_comment : text :=
  text_of_string
    "// Handle objects that don't need camera movement (trashTruck, convoyeur, sensorSensei)".

Definition medical_comment : text :=
  text_of_string
    "// Handle objects that don't need camera movement (trashTruck, convoyeur, sensorSensei, medical)".

Definition forvia_comment : text :=
  text_of_string
    "// Handle objects that don't need camera movement (trashTruck, convoyeur, sensorSensei, medical, forviaCAR)".

(** The condition line after the medical script, and the condition that
    forvia rule 1 looks for and writes. *)
Definition medical_condition_line : text :=
  text_of_string
    "if (object.userData.type === 'trashTruck' || object.userData.type === 'convoyeur' || object.userData.type === 'sensorSensei' || object.userData.type === 'medical')".

Definition medical_condition : text :=
  text_of_string
    "object.userData.type === 'trashTruck' || object.userData.type === 'convoyeur' || object.userData.type === 'sensorSensei' || object.userData.type === 'medical'".

Definition forvia_condition : text :=
  text_of_string
    "object.userData.type === 'trashTruck' || object.userData.type === 'convoyeur' || object.userData.type === 'sensorSensei' || object.userData.type === 'medical' || object.userData.type === 'forviaCAR'".

(** What a replacement string says to put for a match: the match with a
    block appended ([\1] and the block), or a new text for the old
    one. *)
Inductive action : Type :=
| Appends (block : text)
| Rewrites (old new : text).

(** The replacement text for the match [m]. *)
Definition replacement (a : action) (m : text) : text :=
  match a with
  | Appends block => m ++ block
  | Rewrites _ new => new
  end.

(** By how many characters the replacement is longer than the match. *)
Definition growth (a : action) : nat :=
  match a with
  | Appends block => length block
  | Rewrites old new => length new - length old
  end.

(** The nine rules and what their replacement strings say, read off
    the two scripts. *)
Definition rule_actions : list ((string * string) * action) :=
  [ (medical1, Rewrites condition_line medical_condition_line);
    (medical2, Appends medical_block);
    (medical3, Appends medical_reset);
    (medical4, Rewrites old_comment medical_comment);
    (forvia1, Rewrites medical_condition forvia_condition);
    (forvia2, Appends forvia_block);
    (forvia3, Rewrites medical_comment forvia_comment);
    (forvia4, Appends forvia_reset_overview);
    (forvia5, Appends forvia_reset_areas) ].

(** The text of a cut with every match replaced as the action says. *)
Definition replaced_by (a : action) (segs : list (text * text)) (tail : text)
  : text :=
  flat_map (fun gm => fst gm ++ replacement a (snd gm)) segs ++ tail.

(** [x] is [y] with some characters left out. *)
Inductive Subseq : text -> text -> Prop :=
| Subseq_nil : Subseq [] []
| Subseq_skip c x y : Subseq x y -> Subseq x (c :: y)
| Subseq_take c x y : Subseq x y -> Subseq (c :: x) (c :: y).

Fixpoint subseqb (x y : text) : bool :=
  match y with
  | [] => match x with [] => true | _ :: _ => false end
  | d :: y' =>
      match x with
      | [] => true
      | c :: x' => if (c =? d)%N then subseqb x' y' else subseqb x y'
      end
  end.

(** The literal characters of a pattern. *)
Definition lit_text (p : pat) : text :=
  flat_map (fun i => match i with Lit c => [c] | WsPlus => [] end) p.

(** The world after [n] runs of a script, whatever they return. *)
Fixpoint rerun (script : M unit) (n : nat) (w : world) : world :=
  match n with
  | 0 => w
  | S n' => snd (script (rerun script n' w))
  end.

(** A file with everything the medical script looks for. *)
Definition full_before_medical : text :=
  lines ["      "%string] ++ old_comment ++ lines ["      "%string]
  ++ condition_line ++ text_of_string " {"
  ++ sensor_block ++ lines ["      }"%string] ++ sensor_reset.

(** What one match adds to the length of the buffer under a rule. *)
Definition gain (pr : string * string) : nat :=
  length (expand (tpl (compiled pr)) (lit_text (pattern_of pr)))
  - length (lit_text (pattern_of pr)).

Definition sensor_word : text := text_of_string "sensorSensei".

(* ################################################################# *)
(** * Part II: the properties *)

Set Implicit Arguments.

(* ================================================================= *)
(** ** The matcher finds what the pattern matches *)

Lemma match_here_ws_nil p : match_here (WsPlus :: p) [] = None.
Proof. reflexivity. Qed.

Lemma match_here_ws_cons p x s :
  match_here (WsPlus :: p) (x :: s) =
  if isspace x then
    match match_here (WsPlus :: p) s with
    | Some n => Some (S n)
    | None => option_map S (match_here p s)
    end
  else None.
Proof. reflexivity. Qed.

Lemma match_here_lit_cons c p x s :
  match_here (Lit c :: p) (x :: s) =
  if (x =? c)%N then option_map S (match_here p s) else None.
Proof. reflexivity. Qed.

(** [\s+] gives a space back when the literal behind it needs one. *)
Example match_here_gives_back :
  match_here [WsPlus; Lit 32%N; Lit 97%N] (text_of_string "   a b") = Some 4.
Proof. reflexivity. Qed.

(** Medical pattern 2, compiled: one group, three runs of spaces. *)
Example medical_pattern2_compiled :
  re_compile Medical.pattern2
  = Some (Regex true
            (WsPlus
             :: lits (text_of_string
                  "if (object.userData.type === 'sensorSensei' && !sensorSenseiModalClosed) {")
             ++ WsPlus :: lits (text_of_string "showSensorSenseiModal();")
             ++ [WsPlus; Lit 125%N])).
Proof. vm_compute. reflexivity. Qed.

(** A template may only name the group the pattern has. *)
Example no_group_to_refer_to :
  re_sub Medical.pattern1 Medical.replacement2 [] = Raise ReError.
Proof. vm_compute. reflexivity. Qed.

Example medical_rule2_on_its_block :
  re_sub Medical.pattern2 Medical.replacement2 sensor_block
  = Ok (sensor_block ++ medical_block).
Proof. vm_compute. reflexivity. Qed.

Example forvia_rule1_on_the_medical_condition :
  re_sub Forvia.pattern1 Forvia.replacement1
    (text_of_string Medical.replacement1)
  = Ok (text_of_string
          "if (object.userData.type === 'trashTruck' || object.userData.type === 'convoyeur' || object.userData.type === 'sensorSensei' || object.userData.type === 'medical' || object.userData.type === 'forviaCAR')").
Proof. vm_compute. reflexivity. Qed.

(** A match is a prefix of the text and is in the pattern's language. *)
Lemma match_here_sound p : forall s n,
  match_here p s = Some n -> n <= length s /\ Matches p (firstn n s).
Proof.
  induction p as [|i p IH]; intros s n H.
  - simpl in H. injection H as <-. split; [lia | constructor].
  - destruct i as [c|].
    + destruct s as [|x s]; [discriminate|].
      rewrite match_here_lit_cons in H.
      destruct (N.eqb_spec x c) as [->|]; [|discriminate].
      destruct (match_here p s) as [k|] eqn:E; [|discriminate].
      injection H as <-. apply IH in E. simpl. split; [lia|]. constructor; tauto.
    + revert n H. induction s as [|x s IHs]; intros n H; [discriminate|].
      rewrite match_here_ws_cons in H.
      destruct (isspace x) eqn:Ex; [|discriminate].
      destruct (match_here (WsPlus :: p) s) as [k|] eqn:E1.
      * injection H as <-. destruct (IHs _ eq_refl). simpl. split; [lia|].
        now apply M_ws_more.
      * destruct (match_here p s) as [k|] eqn:E2; [|discriminate].
        injection H as <-. apply IH in E2. simpl. split; [lia|].
        apply M_ws_last; tauto.
Qed.

(** Whatever the pattern can match at the start of a text, the matcher
    finds a match there. *)
Lemma match_here_complete p m : Matches p m ->
  forall rest, exists n, match_here p (m ++ rest) = Some n.
Proof.
  induction 1 as [|c p m _ IH|c p m Hc _ IH|c p m Hc _ IH]; intros rest.
  - now exists 0.
  - destruct (IH rest) as [n E]. exists (S n).
    simpl app. rewrite match_here_lit_cons, N.eqb_refl, E. reflexivity.
  - simpl app. rewrite match_here_ws_cons, Hc.
    destruct (match_here (WsPlus :: p) (m ++ rest)) as [k|]; [now eexists|].
    destruct (IH rest) as [n E]. rewrite E. now eexists.
  - simpl app. rewrite match_here_ws_cons, Hc.
    destruct (IH rest) as [n E]. rewrite E. now eexists.
Qed.

Lemma Matches_nonempty p m : p <> [] -> Matches p m -> m <> [].
Proof. intros Hp H. destruct H; congruence. Qed.

Lemma match_here_pos p s n : p <> [] -> match_here p s = Some n -> 0 < n.
Proof.
  intros Hp H. apply match_here_sound in H as [_ H].
  apply (Matches_nonempty Hp) in H. destruct n; [|lia].
  now rewrite firstn_O in H.
Qed.

Lemma match_here_nil p : p <> [] -> match_here p [] = None.
Proof. destruct p as [|[c|] p]; [congruence | reflexivity | reflexivity]. Qed.

(* ================================================================= *)
(** ** The equations of the scan *)

Lemma sub_loop_fuel p t : forall f1 f2 s,
  length s < f1 -> length s < f2 -> sub_loop f1 p t s = sub_loop f2 p t s.
Proof.
  induction f1 as [|f1 IH]; intros f2 s H1 H2; [lia|].
  destruct f2 as [|f2]; [lia|]. simpl.
  destruct s as [|c s]; [reflexivity|]. simpl in H1, H2.
  destruct (match_here p (c :: s)) as [[|n]|] eqn:E.
  - f_equal. f_equal. apply IH; lia.
  - f_equal. assert (length (skipn n s) <= length s)
      by (rewrite length_skipn; lia).
    apply IH; lia.
  - f_equal. apply IH; lia.
Qed.

(** The fuel [sub] starts with is enough: more fuel changes nothing. *)
Lemma sub_fuel_enough p t s f :
  length s < f -> sub_loop f p t s = sub p t s.
Proof. intros H. apply sub_loop_fuel; [exact H | lia]. Qed.

Lemma sub_loop_cons f p t c s :
  sub_loop (S f) p t (c :: s) =
  match match_here p (c :: s) with
  | Some 0 => expand t [] ++ c :: sub_loop f p t s
  | Some (S n) =>
      expand t (firstn (S n) (c :: s)) ++ sub_loop f p t (skipn (S n) (c :: s))
  | None => c :: sub_loop f p t s
  end.
Proof. reflexivity. Qed.

Lemma sub_nil p t : p <> [] -> sub p t [] = [].
Proof. intros Hp. unfold sub. simpl. now rewrite match_here_nil. Qed.

Lemma sub_miss p t c s :
  match_here p (c :: s) = None -> sub p t (c :: s) = c :: sub p t s.
Proof.
  intros E. unfold sub. change (length (c :: s)) with (S (length s)).
  now rewrite sub_loop_cons, E.
Qed.

Lemma sub_hit p t s n : p <> [] ->
  match_here p s = Some n ->
  sub p t s = expand t (firstn n s) ++ sub p t (skipn n s).
Proof.
  intros Hp E. pose proof (match_here_pos _ Hp E) as Hn.
  destruct (match_here_sound _ _ E) as [Hl _].
  destruct n as [|n]; [lia|]. destruct s as [|c s]; [simpl in Hl; lia|].
  unfold sub at 1. change (length (c :: s)) with (S (length s)).
  rewrite sub_loop_cons, E. f_equal. unfold sub.
  apply sub_loop_fuel; rewrite length_skipn; simpl in *; lia.
Qed.

(* ================================================================= *)
(** ** Lists cut at a position *)

Lemma skipn_length_app (A : Type) (pre x : list A) :
  skipn (length pre) (pre ++ x) = x.
Proof. induction pre; simpl; auto. Qed.

Lemma firstn_length_app (A : Type) (pre x : list A) :
  firstn (length pre) (pre ++ x) = pre.
Proof. induction pre; simpl; congruence. Qed.

Lemma skipn_short_app (A : Type) n (pre x : list A) :
  n <= length pre -> skipn n (pre ++ x) = skipn n pre ++ x.
Proof.
  revert pre. induction n as [|n IH]; intros [|a pre] H; simpl in *;
    try reflexivity; try lia. apply IH. lia.
Qed.

Lemma skipn_add (A : Type) n k (s : list A) :
  skipn k (skipn n s) = skipn (n + k) s.
Proof.
  revert s. induction n as [|n IH]; intros s; simpl; [reflexivity|].
  destruct s; [now rewrite skipn_nil | apply IH].
Qed.

Lemma split_at (A : Type) n (s : list A) :
  n <= length s -> exists m rest, s = m ++ rest /\ length m = n.
Proof.
  intros H. exists (firstn n s), (skipn n s).
  rewrite firstn_skipn, length_firstn. split; [reflexivity | lia].
Qed.

(* ================================================================= *)
(** ** The scan, match by match *)

Section Scan.

Variable p : pat.
Variable t : template.
Hypothesis p_nonempty : p <> [].

(** No match: the scan copies the text. *)
Lemma sub_no_match s : NoMatch p s -> sub p t s = s.
Proof.
  induction s as [|c s IH]; intros H.
  - now apply sub_nil.
  - rewrite sub_miss by exact (H 0). f_equal. apply IH.
    intros k. exact (H (S k)).
Qed.

(** No match starts in the first [length g] positions: they are copied. *)
Lemma sub_copy g : forall rest,
  (forall k, k < length g -> match_here p (skipn k (g ++ rest)) = None) ->
  sub p t (g ++ rest) = g ++ sub p t rest.
Proof.
  induction g as [|c g IH]; intros rest H; [reflexivity|].
  simpl app. rewrite sub_miss by (apply (H 0); simpl; lia). f_equal.
  apply IH. intros k Hk. apply (H (S k)). simpl; lia.
Qed.

(** A match at the head of the text is replaced, the scan goes on
    behind it. *)
Lemma sub_match m rest :
  match_here p (m ++ rest) = Some (length m) ->
  sub p t (m ++ rest) = expand t m ++ sub p t rest.
Proof.
  intros E. rewrite (sub_hit t _ p_nonempty E).
  now rewrite firstn_length_app, skipn_length_app.
Qed.

Lemma sub_Scan s segs tail :
  Scan p s segs tail -> sub p t s = replaced t segs tail.
Proof.
  induction 1 as [tail H|gap m rest segs tail Hg Hm _ IH].
  - now apply sub_no_match.
  - rewrite sub_copy by exact Hg. rewrite sub_match by exact Hm.
    rewrite IH. unfold replaced. simpl. now rewrite <- !app_assoc.
Qed.

(** Every text has such a cut. *)
Lemma Scan_total : forall s, exists segs tail, Scan p s segs tail.
Proof.
  intros s. remember (length s) as n eqn:Hn. revert s Hn.
  induction n as [n IH] using lt_wf_ind. intros s Hn.
  destruct s as [|c s].
  - exists [], []. constructor. intros k. rewrite skipn_nil.
    now apply match_here_nil.
  - destruct (match_here p (c :: s)) as [k|] eqn:E.
    + pose proof (match_here_pos _ p_nonempty E) as Hk.
      destruct (match_here_sound _ _ E) as [Hl _].
      destruct (@split_at _ _ _ Hl) as (m & rest & Hs & Hm).
      assert (Hr : length rest < n).
      { subst n. rewrite Hs, length_app. lia. }
      destruct (IH _ Hr rest eq_refl) as (segs & tail & HS).
      exists (([], m) :: segs), tail. rewrite Hs.
      apply (Scan_hit p [] m); [simpl; intros; lia | | exact HS].
      rewrite <- Hs, Hm. exact E.
    + assert (Hr : length s < n) by (subst n; simpl; lia).
      destruct (IH _ Hr s eq_refl) as (segs & tail & HS).
      destruct HS as [tail H|gap m rest segs tail Hg Hm HS].
      * exists [], (c :: tail). constructor. intros [|k]; [exact E | apply H].
      * exists ((c :: gap, m) :: segs), tail.
        apply (Scan_hit p (c :: gap) m); [| exact Hm | exact HS].
        intros [|k] Hk; [exact E|]. apply Hg. simpl in Hk. lia.
Qed.

(** As soon as the pattern matches somewhere, the output holds the
    replacement of a match. *)
Lemma sub_first_hit : forall s k,
  match_here p (skipn k s) <> None ->
  exists pre m post,
    Matches p m /\ sub p t s = pre ++ expand t m ++ post.
Proof.
  induction s as [|c s IH]; intros k H.
  - rewrite skipn_nil, match_here_nil in H by assumption. congruence.
  - destruct (match_here p (c :: s)) as [n|] eqn:E.
    + destruct (match_here_sound _ _ E) as [_ HM].
      exists [], (firstn n (c :: s)), (sub p t (skipn n (c :: s))).
      split; [exact HM|]. now rewrite (sub_hit t _ p_nonempty E).
    + destruct k as [|k]; [simpl in H; congruence|].
      destruct (IH k H) as (pre & m & post & HM & Hs).
      exists (c :: pre), m, post. split; [exact HM|].
      rewrite sub_miss by exact E. now rewrite Hs.
Qed.

(** A piece of text that no match meets is still there after the scan. *)
Lemma sub_keeps : forall pre w post,
  Clear p (pre ++ w ++ post) (length pre) (length w) ->
  Infix w (sub p t (pre ++ w ++ post)).
Proof.
  intros pre. remember (length pre) as a eqn:Ha. revert pre Ha.
  induction a as [a IH] using lt_wf_ind. intros pre Ha w post HC.
  destruct w as [|x w].
  { exists [], (sub p t (pre ++ [] ++ post)). reflexivity. }
  destruct pre as [|c pre].
  - exists [], (sub p t post). apply (sub_copy (x :: w) post). intros k Hk.
    destruct (match_here p (skipn k ((x :: w) ++ post))) as [n|] eqn:E;
      [|reflexivity].
    pose proof (match_here_pos _ p_nonempty E).
    destruct (HC k n E); cbn [length] in *; lia.
  - destruct (match_here p ((c :: pre) ++ (x :: w) ++ post)) as [n|] eqn:E.
    + pose proof (match_here_pos _ p_nonempty E) as Hn.
      assert (Hle : n <= length (c :: pre)).
      { destruct (HC 0 n E) as [H|H]; cbn [length] in *; lia. }
      rewrite (sub_hit t _ p_nonempty E).
      rewrite (skipn_short_app _ _ Hle).
      assert (Hlen : length (skipn n (c :: pre)) = a - n).
      { rewrite length_skipn. now subst a. }
      assert (Hlt : length (skipn n (c :: pre)) < a) by lia.
      destruct (IH _ Hlt _ eq_refl (x :: w) post) as (pre' & post' & Hs).
      * intros k n' E'. rewrite <- (skipn_short_app _ _ Hle) in E'.
        rewrite skipn_add in E'. rewrite Hlen.
        destruct (HC _ _ E') as [H|H]; cbn [length] in *; lia.
      * rewrite Hs. eexists (_ ++ pre'), post'. now rewrite <- app_assoc.
    + change ((c :: pre) ++ (x :: w) ++ post)
        with (c :: (pre ++ (x :: w) ++ post)) in *.
      rewrite sub_miss by exact E.
      assert (Hlt : length pre < a) by (subst a; cbn [length]; lia).
      destruct (IH _ Hlt _ eq_refl (x :: w) post) as (pre' & post' & Hs).
      * intros k n' E'.
        destruct (HC (S k) n' E') as [H|H]; cbn [length] in *; lia.
      * rewrite Hs. now exists (c :: pre'), post'.
Qed.

End Scan.

(** A rule that keeps its match and appends a fixed text to it. *)
Lemma expand_insert g ins m : expand (TRef g :: map TLit ins) m = m ++ ins.
Proof.
  unfold expand. simpl. f_equal. induction ins; simpl; congruence.
Qed.

(** A template without group reference stands for one fixed text. *)
Lemma expand_literal lits m : expand (map TLit lits) m = lits.
Proof. unfold expand. induction lits; simpl; congruence. Qed.

Section ScanEnd.

Variable p : pat.
Variable t : template.
Hypothesis p_nonempty : p <> [].
Hypothesis p_same_end : SameEnd p.

(** Where the pattern matches, the scan replaces a match that ends at
    the same place (it may have started earlier). *)
Lemma sub_reaches : forall pre m post,
  match_here p (m ++ post) = Some (length m) ->
  exists w pre' post',
    sub p t (pre ++ m ++ post) = pre' ++ expand t (w ++ m) ++ post'.
Proof.
  intros pre. remember (length pre) as a eqn:Ha. revert pre Ha.
  induction a as [a IH] using lt_wf_ind. intros pre Ha m post Hm.
  destruct pre as [|c pre].
  - exists [], [], (sub p t post). cbn [app]. now apply sub_match.
  - destruct (match_here p ((c :: pre) ++ m ++ post)) as [n|] eqn:E.
    + destruct (le_lt_dec n (length (c :: pre))) as [Hle|Hgt].
      * pose proof (match_here_pos _ p_nonempty E) as Hn.
        rewrite (sub_hit t _ p_nonempty E), (skipn_short_app _ _ Hle).
        assert (Hlt : length (skipn n (c :: pre)) < a).
        { rewrite length_skipn. subst a. lia. }
        destruct (IH _ Hlt _ eq_refl m post Hm) as (w & pre' & post' & Hs).
        rewrite Hs. exists w. eexists (_ ++ pre'), post'.
        now rewrite <- app_assoc.
      * assert (Hn : length (c :: pre) + length m = n).
        { apply (p_same_end _ E Hgt). now rewrite skipn_length_app. }
        assert (E' : match_here p (((c :: pre) ++ m) ++ post)
                     = Some (length ((c :: pre) ++ m))).
        { now rewrite <- app_assoc, length_app, Hn. }
        exists (c :: pre), [], (sub p t post).
        rewrite (app_assoc (c :: pre) m post).
        exact (sub_match t p_nonempty _ _ E').
    + change ((c :: pre) ++ m ++ post) with (c :: (pre ++ m ++ post)) in *.
      rewrite sub_miss by exact E.
      assert (Hlt : length pre < a) by (subst a; cbn [length]; lia).
      destruct (IH _ Hlt _ eq_refl m post Hm) as (w & pre' & post' & Hs).
      rewrite Hs. now exists w, (c :: pre'), post'.
Qed.

End ScanEnd.

(* ================================================================= *)
(** ** The overlap check is sound *)

Lemma compat_nil_r p : compat p [] = true.
Proof. destruct p; reflexivity. Qed.

Lemma compat_cons i p j q :
  compat (i :: p) (j :: q) =
  match i, j with
  | Lit a, Lit b => (a =? b)%N && compat p q
  | WsPlus, Lit b => isspace b && (compat p q || compat (i :: p) q)
  | Lit a, WsPlus => isspace a && (compat p q || compat p (j :: q))
  | WsPlus, WsPlus => compat p q || (compat (i :: p) q || compat p (j :: q))
  end.
Proof. destruct i, j; reflexivity. Qed.

Lemma Begins_nil_cons full c x : ~ Begins full [] (c :: x).
Proof.
  destruct full; simpl; [intros H | intros [y H]]; inversion H.
Qed.

Lemma Begins_lit full a p c x :
  Begins full (Lit a :: p) (c :: x) -> a = c /\ Begins full p x.
Proof.
  destruct full; simpl.
  - intros H. inversion H; subst. auto.
  - intros [y H]. inversion H; subst. split; [reflexivity | now exists y].
Qed.

Lemma Begins_ws full p c x :
  Begins full (WsPlus :: p) (c :: x) ->
  isspace c = true /\ (Begins full p x \/ Begins full (WsPlus :: p) x).
Proof.
  destruct full; simpl.
  - intros H. inversion H; subst; auto.
  - intros [y H]. inversion H; subst; split; trivial;
      [left | right]; now exists y.
Qed.

Lemma compat_sound : forall x fp fq p q,
  Begins fp p x -> Begins fq q x -> fp || fq = true -> compat p q = true.
Proof.
  induction x as [|c x IH]; intros fp fq p q Hp Hq Hf.
  - destruct fp; simpl in Hp.
    + inversion Hp. reflexivity.
    + destruct fq; [|discriminate]. simpl in Hq. inversion Hq.
      apply compat_nil_r.
  - destruct p as [|i p]; [now apply Begins_nil_cons in Hp|].
    destruct q as [|j q]; [now apply Begins_nil_cons in Hq|].
    rewrite compat_cons. destruct i as [a|], j as [b|].
    + apply Begins_lit in Hp as [-> Hp]. apply Begins_lit in Hq as [-> Hq].
      rewrite N.eqb_refl. cbn [andb]. eapply IH; eauto.
    + apply Begins_lit in Hp as [-> Hp]. apply Begins_ws in Hq as [Hc Hq].
      rewrite Hc. cbn [andb]. apply orb_true_iff.
      destruct Hq as [Hq|Hq]; [left | right]; eapply IH; eauto.
    + apply Begins_ws in Hp as [Hc Hp]. apply Begins_lit in Hq as [-> Hq].
      rewrite Hc. cbn [andb]. apply orb_true_iff.
      destruct Hp as [Hp|Hp]; [left | right]; eapply IH; eauto.
    + apply Begins_ws in Hp as [Hc Hp]. apply Begins_ws in Hq as [_ Hq].
      rewrite !orb_true_iff.
      destruct Hp as [Hp|Hp], Hq as [Hq|Hq].
      * left. eapply IH; eauto.
      * right; right. eapply IH; eauto.
      * right; left. eapply IH; eauto.
      * (* both runs go on: the same two patterns on a shorter text *)
        pose proof (IH _ _ _ _ Hp Hq Hf) as H.
        rewrite compat_cons in H. now rewrite !orb_true_iff in H.
Qed.

(** What is left of a pattern from a position inside one of its matches. *)
Lemma Matches_residual : forall m1 p m2,
  Matches p (m1 ++ m2) -> m2 <> [] ->
  exists j, j < length p /\ Matches (skipn j p) m2.
Proof.
  induction m1 as [|c m1 IH]; intros p m2 H Hm2.
  - exists 0. split; [|exact H]. destruct p; [|simpl; lia].
    simpl in H. inversion H. subst. congruence.
  - simpl in H.
    inversion H as [|c' p' m' H'|c' p' m' Hc H'|c' p' m' Hc H']; subst.
    + destruct (IH _ _ H' Hm2) as (j & Hj & HM). exists (S j).
      split; [simpl; lia | exact HM].
    + destruct (IH _ _ H' Hm2) as (j & Hj & HM). exists (S j).
      split; [simpl; lia | exact HM].
    + destruct (IH _ _ H' Hm2) as (j & Hj & HM). now exists j.
Qed.

Lemma can_start_in_sound p q m1 m2 u r1 r2 :
  Matches p (m1 ++ m2) -> m2 <> [] -> Matches q u ->
  m2 ++ r1 = u ++ r2 ->
  can_start_in p q = true.
Proof.
  intros Hp Hm2 Hq He.
  destruct (@Matches_residual _ _ _ Hp Hm2) as (j & Hj & HM).
  apply existsb_exists. exists j. split; [apply in_seq; lia|].
  apply app_eq_app in He as [z [[-> _]|[-> _]]].
  - apply (@compat_sound u false true); simpl; eauto.
  - apply (@compat_sound m2 true false); simpl; eauto.
Qed.

Lemma Clear_of_apart p q pre u post :
  apart p q = true -> Matches q u ->
  Clear p (pre ++ u ++ post) (length pre) (length u).
Proof.
  unfold apart. rewrite andb_true_iff, !negb_true_iff. intros [Hpq Hqp] Hu.
  intros k n E. destruct (match_here_sound _ _ E) as [Hl HM].
  set (s := pre ++ u ++ post) in *.
  set (m := firstn n (skipn k s)) in *.
  assert (Hm : length m = n) by (unfold m; rewrite length_firstn; lia).
  assert (Hk : skipn k s = m ++ skipn n (skipn k s))
    by (unfold m; now rewrite firstn_skipn).
  assert (Ha : skipn (length pre) s = u ++ post)
    by (unfold s; apply skipn_length_app).
  destruct (le_lt_dec (k + n) (length pre)) as [|H1]; [now left|].
  destruct (le_lt_dec (length pre + length u) k) as [|H2]; [now right|].
  exfalso. destruct (le_lt_dec k (length pre)) as [Hle|Hgt].
  - (* [u] starts inside the match *)
    set (d := length pre - k).
    assert (Hd : skipn d (skipn k s) = u ++ post).
    { rewrite skipn_add. replace (k + d) with (length pre) by (unfold d; lia).
      exact Ha. }
    rewrite Hk, skipn_short_app in Hd by (unfold d; lia).
    rewrite <- (firstn_skipn d m) in HM.
    assert (Hne : skipn d m <> []).
    { intros H0. apply (f_equal (@length _)) in H0.
      rewrite length_skipn in H0. simpl in H0. unfold d in H0. lia. }
    pose proof (@can_start_in_sound p q _ _ _ _ _ HM Hne Hu Hd). congruence.
  - (* the match starts inside [u] *)
    set (d := k - length pre).
    assert (Hd : skipn d (skipn (length pre) s) = m ++ skipn n (skipn k s)).
    { rewrite skipn_add. replace (length pre + d) with k by (unfold d; lia).
      exact Hk. }
    rewrite Ha, skipn_short_app in Hd by (unfold d; lia).
    rewrite <- (firstn_skipn d u) in Hu.
    assert (Hne : skipn d u <> []).
    { intros H0. apply (f_equal (@length _)) in H0.
      rewrite length_skipn in H0. simpl in H0. unfold d in H0. lia. }
    pose proof (@can_start_in_sound q p _ _ _ _ _ Hu Hne HM Hd). congruence.
Qed.

(** A match of [q] that lies in the text survives the substitution of
    a pattern apart from [q]. *)
Lemma sub_keeps_apart p t q u s :
  p <> [] -> apart p q = true -> Matches q u ->
  Infix u s -> Infix u (sub p t s).
Proof.
  intros Hp Ha Hu (pre & post & ->).
  apply sub_keeps; [exact Hp | now apply Clear_of_apart with q].
Qed.

(* ================================================================= *)
(** ** Patterns with one way to match *)

Lemma Matches_ws_head p m :
  Matches (WsPlus :: p) m -> exists c m', m = c :: m' /\ isspace c = true.
Proof. intros H. inversion H; subst; eauto. Qed.

Lemma Matches_lit_head d p m :
  Matches (Lit d :: p) m -> exists m', m = d :: m'.
Proof. intros H. inversion H; subst; eauto. Qed.

Lemma determinate_ws p :
  determinate (WsPlus :: p) = true ->
  exists d p', p = Lit d :: p' /\ isspace d = false /\ determinate p = true.
Proof.
  simpl. destruct p as [|[d|] p']; try discriminate.
  rewrite andb_true_iff, negb_true_iff. intros [H1 H2]. now exists d, p'.
Qed.

(** The run of spaces cannot both stop and go on at one place. *)
Lemma ws_stop_or_go d p m1 m2 r1 r2 :
  isspace d = false ->
  Matches (Lit d :: p) m1 -> Matches (WsPlus :: Lit d :: p) m2 ->
  m1 ++ r1 = m2 ++ r2 -> False.
Proof.
  intros Hd H1 H2 He.
  apply Matches_lit_head in H1 as (m1' & ->).
  apply Matches_ws_head in H2 as (c & m2' & -> & Hc).
  simpl in He. injection He as -> _. congruence.
Qed.

Lemma Matches_determ p m1 :
  Matches p m1 -> determinate p = true ->
  forall m2 r1 r2, Matches p m2 -> m1 ++ r1 = m2 ++ r2 -> m1 = m2.
Proof.
  induction 1 as [|c p m H IH|c p m Hc H IH|c p m Hc H IH];
    intros Hd m2 r1 r2 H2 He.
  - now inversion H2.
  - inversion H2 as [|c' p' m' H'| |]; subst.
    simpl in He. injection He as He. f_equal. eapply IH; eauto.
  - destruct (determinate_ws _ Hd) as (d & p' & -> & Hsp & Hd').
    inversion H2 as [| |c' p'' m' Hc' H'|c' p'' m' Hc' H']; subst;
      simpl in He; injection He as -> He.
    + f_equal. eapply IH; eauto.
    + exfalso. exact (@ws_stop_or_go _ _ _ _ _ _ Hsp H H' He).
  - destruct (determinate_ws _ Hd) as (d & p' & -> & Hsp & Hd').
    inversion H2 as [| |c' p'' m' Hc' H'|c' p'' m' Hc' H']; subst;
      simpl in He; injection He as -> He.
    + exfalso. exact (@ws_stop_or_go _ _ _ _ _ _ Hsp H' H (eq_sym He)).
    + f_equal. eapply IH; eauto.
Qed.

(** On such a pattern the matcher returns the one match there is. *)
Lemma match_here_exact p m rest :
  determinate p = true -> Matches p m ->
  match_here p (m ++ rest) = Some (length m).
Proof.
  intros Hd HM. destruct (match_here_complete HM rest) as [n E].
  destruct (match_here_sound _ _ E) as [Hl HM'].
  assert (Hf : firstn n (m ++ rest) = m).
  { eapply Matches_determ with (r2 := rest); eauto. apply firstn_skipn. }
  rewrite E. f_equal. apply (f_equal (@length _)) in Hf.
  rewrite length_firstn in Hf. lia.
Qed.

Lemma SameEnd_of_self_apart p : self_apart p = true -> SameEnd p.
Proof.
  unfold self_apart. rewrite andb_true_iff, forallb_forall.
  intros [Hd Hall] s n k n' E Hk E'.
  destruct (match_here_sound _ _ E) as [Hl HM].
  destruct (match_here_sound _ _ E') as [Hl' HM'].
  set (m := firstn n s) in *.
  assert (Hm : length m = n) by (unfold m; rewrite length_firstn; lia).
  assert (Hs : skipn k s = skipn k m ++ skipn n s).
  { rewrite <- (firstn_skipn n s) at 1. fold m.
    apply skipn_short_app. lia. }
  assert (Hne : skipn k m <> []).
  { intros H0. apply (f_equal (@length _)) in H0.
    rewrite length_skipn in H0. simpl in H0. lia. }
  rewrite <- (firstn_skipn k m) in HM.
  destruct (@Matches_residual _ _ _ HM Hne) as (j & Hj & Hres).
  assert (He : skipn k m ++ skipn n s
               = firstn n' (skipn k s) ++ skipn n' (skipn k s)).
  { now rewrite firstn_skipn. }
  destruct j as [|j].
  - simpl in Hres.
    pose proof (@Matches_determ p _ Hres Hd _ _ _ HM' He) as Heq.
    apply (f_equal (@length _)) in Heq.
    rewrite length_skipn, length_firstn in Heq. lia.
  - exfalso.
    assert (Hin : In (S j) (seq 1 (length p - 1))) by (apply in_seq; lia).
    apply Hall in Hin. apply negb_true_iff in Hin.
    assert (Hc : compat (skipn (S j) p) p = true); [|congruence].
    apply app_eq_app in He as [z [[Hz _]|[Hz _]]].
    + rewrite Hz in Hres.
      apply (@compat_sound (firstn n' (skipn k s)) false true);
        simpl; eauto.
    + rewrite Hz in HM'.
      apply (@compat_sound (skipn k m) true false); simpl; eauto.
Qed.

(* ================================================================= *)
(** ** Literal text and occurrences *)

Lemma Matches_lits x : Matches (lits x) x.
Proof. induction x; simpl; auto. Qed.

Lemma Matches_lits_inv x : forall m, Matches (lits x) m -> m = x.
Proof.
  induction x as [|c x IH]; intros m H; inversion H; subst; [reflexivity|].
  f_equal. now apply IH.
Qed.


Lemma Matches_app p1 m1 : Matches p1 m1 ->
  forall p2 m2, Matches p2 m2 -> Matches (p1 ++ p2) (m1 ++ m2).
Proof.
  induction 1 as [|c p m _ IH|c p m Hc _ IH|c p m Hc _ IH];
    intros p2 m2 H2; simpl.
  - exact H2.
  - apply M_lit, IH, H2.
  - apply M_ws_last; [exact Hc | apply IH, H2].
  - apply M_ws_more; [exact Hc | apply (IH p2 m2 H2)].
Qed.

Lemma Matches_app_inv p2 : forall m p1,
  Matches (p1 ++ p2) m ->
  exists m1 m2, m = m1 ++ m2 /\ Matches p1 m1 /\ Matches p2 m2.
Proof.
  induction m as [|c m IH]; intros p1 H.
  - destruct p1 as [|i p1]; [now exists [], []|]. inversion H.
  - destruct p1 as [|i p1]; [now exists [], (c :: m)|].
    simpl in H.
    inversion H as [|c' p' m' H'|c' p' m' Hc H'|c' p' m' Hc H']; subst.
    + destruct (IH _ H') as (m1 & m2 & -> & H1 & H2).
      exists (c :: m1), m2. auto.
    + destruct (IH _ H') as (m1 & m2 & -> & H1 & H2).
      exists (c :: m1), m2. auto.
    + destruct (IH (WsPlus :: p1) H') as (m1 & m2 & -> & H1 & H2).
      exists (c :: m1), m2. auto.
Qed.

Lemma Infix_refl (x : text) : Infix x x.
Proof. exists [], []. now rewrite app_nil_r. Qed.

Lemma Infix_trans (x y z : text) : Infix x y -> Infix y z -> Infix x z.
Proof.
  intros (a & b & ->) (c & d & ->). exists (c ++ a), (b ++ d).
  now rewrite <- !app_assoc.
Qed.

Lemma Infix_app_l (x a s : text) : Infix x s -> Infix x (a ++ s).
Proof. intros (b & c & ->). exists (a ++ b), c. now rewrite <- app_assoc. Qed.

Lemma Infix_app_r (x s b : text) : Infix x s -> Infix x (s ++ b).
Proof.
  intros (a & c & ->). exists a, (c ++ b). now rewrite <- !app_assoc.
Qed.

Lemma skipn_beyond p s k :
  p <> [] -> length s < k -> match_here p (skipn k s) = None.
Proof.
  intros Hp Hk. rewrite skipn_all2 by lia. now apply match_here_nil.
Qed.

Lemma Contains_hit p s :
  Contains p s <-> exists k, match_here p (skipn k s) <> None.
Proof.
  split.
  - intros (m & HM & pre & post & ->). exists (length pre).
    rewrite skipn_length_app.
    destruct (match_here_complete HM post) as [n ->]. discriminate.
  - intros [k H]. destruct (match_here p (skipn k s)) as [n|] eqn:E;
      [|congruence].
    destruct (match_here_sound _ _ E) as [_ HM].
    exists (firstn n (skipn k s)). split; [exact HM|].
    exists (firstn k s), (skipn n (skipn k s)).
    now rewrite !firstn_skipn.
Qed.

Lemma NoMatch_iff p s : NoMatch p s <-> ~ Contains p s.
Proof.
  rewrite Contains_hit. split.
  - intros H [k Hk]. now apply Hk.
  - intros H k. destruct (match_here p (skipn k s)) eqn:E; [|reflexivity].
    exfalso. apply H. exists k. congruence.
Qed.

Lemma containsb_false p s :
  p <> [] -> containsb p s = false -> ~ Contains p s.
Proof.
  intros Hp Hb. apply NoMatch_iff. intros k.
  destruct (le_lt_dec k (length s)) as [Hk|Hk]; [|now apply skipn_beyond].
  unfold containsb in Hb.
  destruct (match_starts p s) as [|a l] eqn:E; [|discriminate].
  destruct (match_here p (skipn k s)) eqn:E'; [|reflexivity].
  assert (Hin : In k (match_starts p s)).
  { apply filter_In. split; [apply in_seq; lia|]. unfold hits. now rewrite E'. }
  rewrite E in Hin. destruct Hin.
Qed.

Lemma containsb_true p s : containsb p s = true -> Contains p s.
Proof.
  unfold containsb. destruct (match_starts p s) as [|k l] eqn:E;
    [discriminate|]. intros _.
  assert (Hin : In k (match_starts p s)) by (rewrite E; now left).
  apply filter_In in Hin as [_ Hh]. apply Contains_hit. exists k.
  unfold hits in Hh. destruct (match_here p (skipn k s)); congruence.
Qed.

(** The text [x] occurs in [s], as a pattern of literals. *)
Lemma Contains_lits x s : Contains (lits x) s <-> Infix x s.
Proof.
  split.
  - intros (m & HM & Hi). now rewrite <- (@Matches_lits_inv x m HM).
  - intros H. exists x. split; [apply Matches_lits | exact H].
Qed.

Lemma fullmatch_sound p m : fullmatch p m = true -> Matches p m.
Proof.
  unfold fullmatch. destruct (match_here p m) as [n|] eqn:E; [|discriminate].
  intros H. apply Nat.eqb_eq in H. subst n.
  destruct (match_here_sound _ _ E) as [_ HM]. now rewrite firstn_all in HM.
Qed.

Lemma starts_with_lits_split x : forall p,
  starts_with_lits x p = true -> exists p', p = lits x ++ p'.
Proof.
  induction x as [|c x IH]; intros p H; [now exists p|].
  destruct p as [|[d|] p]; try discriminate. simpl in H.
  destruct (N.eqb_spec c d) as [->|]; [|discriminate].
  destruct (IH _ H) as [p' ->]. now exists p'.
Qed.

Lemma has_lits_Infix x p m :
  has_lits x p = true -> Matches p m -> Infix x m.
Proof.
  intros H HM. apply existsb_exists in H as (j & _ & Hj).
  destruct (@starts_with_lits_split x _ Hj) as [p' Hp].
  rewrite <- (firstn_skipn j p), Hp in HM.
  apply Matches_app_inv in HM as (m1 & m2 & -> & _ & HM).
  apply Matches_app_inv in HM as (m3 & m4 & -> & HM & _).
  apply Matches_lits_inv in HM as ->. now exists m1, m4.
Qed.

(* ================================================================= *)
(** ** The computed cut is the cut of the scan *)

Lemma scan_loop_Scan p : p <> [] -> forall fuel gap s segs tail,
  length s < fuel ->
  (forall k, k < length gap ->
             match_here p (skipn k (rev gap ++ s)) = None) ->
  scan_loop fuel p gap s = (segs, tail) ->
  Scan p (rev gap ++ s) segs tail.
Proof.
  intros Hp. induction fuel as [|fuel IH]; intros gap s segs tail Hf Hg E;
    [lia|].
  destruct s as [|c s].
  - simpl in E. injection E as <- <-. rewrite app_nil_r in *.
    constructor. intros k.
    destruct (le_lt_dec (length gap) k) as [Hk|Hk]; [|now apply Hg].
    rewrite skipn_all2 by (rewrite length_rev; lia). now apply match_here_nil.
  - cbn [scan_loop] in E.
    assert (Hmiss : match_here p (c :: s) = None ->
                    scan_loop fuel p (c :: gap) s = (segs, tail) ->
                    Scan p (rev gap ++ c :: s) segs tail).
    { intros E0 E1.
      replace (rev gap ++ c :: s) with (rev (c :: gap) ++ s)
        by (simpl; now rewrite <- app_assoc).
      apply IH; [simpl in Hf; lia | | exact E1].
      intros k Hk. simpl rev. rewrite <- app_assoc. simpl app.
      destruct (Nat.eq_dec k (length gap)) as [->|Hne].
      - rewrite <- length_rev, skipn_length_app. exact E0.
      - apply Hg. simpl in Hk. lia. }
    destruct (match_here p (c :: s)) as [[|n]|] eqn:E0.
    + pose proof (match_here_pos _ Hp E0). lia.
    + destruct (scan_loop fuel p [] (skipn (S n) (c :: s)))
        as [segs' tail'] eqn:E1.
      injection E as <- <-.
      destruct (match_here_sound _ _ E0) as [Hl _].
      change (c :: firstn n s) with (firstn (S n) (c :: s)).
      replace (rev gap ++ c :: s)
        with (rev gap ++ firstn (S n) (c :: s) ++ skipn (S n) (c :: s))
        by now rewrite firstn_skipn.
      apply Scan_hit.
      * intros k Hk. rewrite firstn_skipn. apply Hg.
        now rewrite length_rev in Hk.
      * rewrite firstn_skipn, length_firstn.
        now replace (Nat.min (S n) (length (c :: s))) with (S n) by lia.
      * apply (IH [] _ segs' tail'); [| simpl; intros; lia | exact E1].
        rewrite length_skipn. simpl in *. lia.
    + now apply Hmiss.
Qed.

Lemma scan_Scan p s segs tail :
  p <> [] -> scan p s = (segs, tail) -> Scan p s segs tail.
Proof.
  intros Hp E. apply (@scan_loop_Scan p Hp _ [] s segs tail) in E;
    [exact E | lia | simpl; intros; lia].
Qed.

Unset Implicit Arguments.

(* ================================================================= *)
(** ** The cut of the scan is the cut the pattern defines *)

Lemma StartsWith_hit p x : StartsWith p x <-> match_here p x <> None.
Proof.
  split.
  - intros (m & r & -> & HM).
    destruct (@match_here_complete _ _ HM r) as [n ->]. discriminate.
  - intros H. destruct (match_here p x) as [n|] eqn:E; [|congruence].
    destruct (@match_here_sound _ _ _ E) as [_ HM].
    exists (firstn n x), (skipn n x).
    split; [now rewrite firstn_skipn | exact HM].
Qed.

Lemma Cut_Scan p s segs tail :
  determinate p = true -> Cut p s segs tail -> Scan p s segs tail.
Proof.
  intros Hd. induction 1 as [tail H|gap m rest segs tail Hg Hm _ IH].
  - constructor. now apply NoMatch_iff.
  - apply Scan_hit; [|now apply match_here_exact|exact IH].
    intros k Hk. specialize (Hg k Hk). rewrite StartsWith_hit in Hg.
    destruct (match_here p (skipn k (gap ++ m ++ rest))); [|reflexivity].
    exfalso. apply Hg. discriminate.
Qed.

Lemma Scan_Cut p s segs tail : Scan p s segs tail -> Cut p s segs tail.
Proof.
  induction 1 as [tail H|gap m rest segs tail Hg Hm _ IH].
  - constructor. now apply NoMatch_iff.
  - apply Cut_hit; [| |exact IH].
    + intros k Hk. rewrite StartsWith_hit, (Hg k Hk). congruence.
    + destruct (@match_here_sound _ _ _ Hm) as [_ HM].
      now rewrite firstn_length_app in HM.
Qed.

(* ================================================================= *)
(** ** Two substitutions that stay apart commute *)

(** A match that lies inside [g] is there whatever follows [g]. *)
Lemma match_in_gap p g k n Z Z' :
  match_here p (skipn k (g ++ Z)) = Some n -> k + n <= length g ->
  match_here p (skipn k (g ++ Z')) <> None.
Proof.
  intros E Hle. destruct (@match_here_sound _ _ _ E) as [_ HM].
  rewrite skipn_short_app in HM by lia.
  rewrite firstn_app in HM.
  replace (n - length (skipn k g)) with 0 in HM
    by (rewrite length_skipn; lia).
  rewrite firstn_O, app_nil_r in HM.
  rewrite skipn_short_app by lia.
  rewrite <- (firstn_skipn n (skipn k g)), <- app_assoc.
  destruct (@match_here_complete _ _ HM (skipn n (skipn k g) ++ Z')) as [n' ->].
  discriminate.
Qed.

Lemma apart_sym p q : apart p q = apart q p.
Proof. unfold apart. apply andb_comm. Qed.

Lemma self_apart_determinate p : self_apart p = true -> determinate p = true.
Proof. unfold self_apart. now intros H%andb_true_iff. Qed.

Section CommuteStep.

Variables pa pb qa : pat.
Variables ta tb : template.
Hypothesis pa_nonempty : pa <> [].
Hypothesis pb_nonempty : pb <> [].
Hypothesis pa_self : self_apart pa = true.
Hypothesis b_a_apart : apart pb pa = true.
Hypothesis b_qa_apart : apart pb qa = true.
Hypothesis qa_ok : forall m, Matches pa m -> Matches qa (expand ta m).

(** The leftmost match of [pa] stays the leftmost match when the text
    behind it changes. *)
Lemma sub_leftmost g m rest Y :
  (forall k, k < length g -> match_here pa (skipn k (g ++ m ++ rest)) = None) ->
  Matches pa m ->
  sub pa ta (g ++ m ++ Y) = g ++ expand ta m ++ sub pa ta Y.
Proof.
  intros Hg HM.
  pose proof (self_apart_determinate _ pa_self) as Hd.
  pose proof (@match_here_exact _ _ Y Hd HM) as E.
  rewrite sub_copy; [now rewrite (@sub_match _ ta pa_nonempty m Y E)|].
  intros k Hk.
  destruct (match_here pa (skipn k (g ++ m ++ Y))) as [n|] eqn:En;
    [|reflexivity].
  exfalso.
  destruct (le_lt_dec (k + n) (length g)) as [Hin|Hout].
  - apply (@match_in_gap _ _ _ _ _ (m ++ rest) En Hin). now apply Hg.
  - assert (Hn : (length g - k) + length m = n).
    { apply (@SameEnd_of_self_apart _ pa_self _ _ _ _ En); [lia|].
      rewrite skipn_add. replace (k + (length g - k)) with (length g) by lia.
      now rewrite skipn_length_app. }
    destruct (@match_here_sound _ _ _ En) as [_ HM'].
    rewrite skipn_short_app in HM' by lia.
    rewrite app_assoc, firstn_app in HM'.
    assert (Hl : length (skipn k g ++ m) = n)
      by (rewrite length_app, length_skipn; lia).
    rewrite <- Hl in HM' at 1. rewrite firstn_all in HM'.
    replace (n - length (skipn k g ++ m)) with 0 in HM' by lia.
    rewrite firstn_O, app_nil_r in HM'.
    specialize (Hg k Hk). rewrite skipn_short_app in Hg by lia.
    rewrite app_assoc in Hg.
    destruct (@match_here_complete _ _ HM' rest) as [n' En'].
    congruence.
Qed.

(** No match of [pb] meets a match of [pa]: the scan for [pb] copies
    it. *)
Lemma sub_over_match g m rest :
  (forall k, k < length g -> match_here pb (skipn k (g ++ m ++ rest)) = None) ->
  Matches pa m ->
  sub pb tb (g ++ m ++ rest) = g ++ m ++ sub pb tb rest.
Proof.
  intros Hg HM. rewrite !app_assoc. rewrite sub_copy; [reflexivity|].
  rewrite <- app_assoc. intros k Hk. rewrite length_app in Hk.
  destruct (le_lt_dec (length g) k) as [Hge|Hlt]; [|now apply Hg].
  destruct (match_here pb (skipn k (g ++ m ++ rest))) as [n|] eqn:En;
    [|reflexivity].
  pose proof (@match_here_pos _ _ _ pb_nonempty En).
  destruct (@Clear_of_apart pb pa g m rest b_a_apart HM k n En); lia.
Qed.

(** Nor does a match of [pb] meet what the rule for [pa] has written. *)
Lemma sub_over_replacement g m rest X :
  (forall k, k < length g -> match_here pb (skipn k (g ++ m ++ rest)) = None) ->
  Matches pa m ->
  sub pb tb (g ++ expand ta m ++ X) = g ++ expand ta m ++ sub pb tb X.
Proof.
  intros Hg HM. rewrite !app_assoc. rewrite sub_copy; [reflexivity|].
  rewrite <- app_assoc. intros k Hk. rewrite length_app in Hk.
  destruct (match_here pb (skipn k (g ++ expand ta m ++ X))) as [n|] eqn:En;
    [|reflexivity].
  exfalso.
  pose proof (@match_here_pos _ _ _ pb_nonempty En).
  destruct (@Clear_of_apart pb qa g (expand ta m) X b_qa_apart (qa_ok _ HM)
              k n En) as [Hin|Hout]; [|lia].
  apply (@match_in_gap _ _ _ _ _ (m ++ rest) En Hin). apply Hg. lia.
Qed.

(** When the leftmost match of the two patterns is one of [pa], the two
    orders agree on the text if they agree behind that match. *)
Lemma commute_step g m rest :
  (forall k, k < length g ->
             match_here pa (skipn k (g ++ m ++ rest)) = None /\
             match_here pb (skipn k (g ++ m ++ rest)) = None) ->
  Matches pa m ->
  sub pb tb (sub pa ta rest) = sub pa ta (sub pb tb rest) ->
  sub pb tb (sub pa ta (g ++ m ++ rest)) = sub pa ta (sub pb tb (g ++ m ++ rest)).
Proof.
  intros Hg HM IH.
  assert (Ha : forall k, k < length g ->
                         match_here pa (skipn k (g ++ m ++ rest)) = None)
    by (intros k Hk; now apply Hg).
  assert (Hb : forall k, k < length g ->
                         match_here pb (skipn k (g ++ m ++ rest)) = None)
    by (intros k Hk; now apply Hg).
  rewrite (sub_leftmost g m rest rest Ha HM).
  rewrite (sub_over_replacement g m rest _ Hb HM).
  rewrite (sub_over_match g m rest Hb HM).
  rewrite (sub_leftmost g m rest _ Ha HM).
  now rewrite IH.
Qed.

End CommuteStep.

(** Every text is free of matches of both patterns, or has a leftmost
    match of one of them. *)
Lemma first_of_two pa pb : pa <> [] -> pb <> [] -> forall s,
  (NoMatch pa s /\ NoMatch pb s) \/
  exists g m rest,
    s = g ++ m ++ rest /\ m <> [] /\
    (forall k, k < length g ->
               match_here pa (skipn k s) = None /\
               match_here pb (skipn k s) = None) /\
    (Matches pa m \/ Matches pb m).
Proof.
  intros Ha Hb. induction s as [|c s IH].
  - left. split; intros k; rewrite skipn_nil; now apply match_here_nil.
  - assert (Hhit : forall p, p <> [] ->
              forall n, match_here p (c :: s) = Some n ->
              firstn n (c :: s) <> [] /\ Matches p (firstn n (c :: s))).
    { intros p Hp n E. destruct (@match_here_sound _ _ _ E) as [Hl HM].
      split; [|exact HM]. apply (@Matches_nonempty _ _ Hp HM). }
    destruct (match_here pa (c :: s)) as [n|] eqn:Ea.
    { right. exists [], (firstn n (c :: s)), (skipn n (c :: s)).
      destruct (Hhit pa Ha n Ea) as [Hne HM].
      split; [now rewrite firstn_skipn|]. split; [exact Hne|].
      split; [simpl; intros; lia | now left]. }
    destruct (match_here pb (c :: s)) as [n|] eqn:Eb.
    { right. exists [], (firstn n (c :: s)), (skipn n (c :: s)).
      destruct (Hhit pb Hb n Eb) as [Hne HM].
      split; [now rewrite firstn_skipn|]. split; [exact Hne|].
      split; [simpl; intros; lia | now right]. }
    destruct IH as [[Na Nb]|(g & m & rest & -> & Hne & Hg & HM)].
    + left. split; intros [|k];
        [exact Ea | exact (Na k) | exact Eb | exact (Nb k)].
    + right. exists (c :: g), m, rest. split; [reflexivity|].
      split; [exact Hne|]. split; [|exact HM].
      intros [|k] Hk; [now split|]. apply Hg. simpl in Hk. lia.
Qed.

Section Commute.

Variables pa pb qa qb : pat.
Variables ta tb : template.
Hypothesis pa_nonempty : pa <> [].
Hypothesis pb_nonempty : pb <> [].
Hypothesis pa_self : self_apart pa = true.
Hypothesis pb_self : self_apart pb = true.
Hypothesis a_b_apart : apart pa pb = true.
Hypothesis b_qa_apart : apart pb qa = true.
Hypothesis a_qb_apart : apart pa qb = true.
Hypothesis qa_ok : forall m, Matches pa m -> Matches qa (expand ta m).
Hypothesis qb_ok : forall m, Matches pb m -> Matches qb (expand tb m).

(** Two substitutions whose matches and replacements stay apart can be
    made in either order. *)
Lemma sub_commute : forall s,
  sub pb tb (sub pa ta s) = sub pa ta (sub pb tb s).
Proof.
  intros s. remember (length s) as n eqn:Hn. revert s Hn.
  induction n as [n IH] using lt_wf_ind. intros s Hn.
  destruct (first_of_two pa pb pa_nonempty pb_nonempty s)
    as [[Na Nb]|(g & m & rest & -> & Hne & Hg & HM)].
  - now rewrite (@sub_no_match _ ta pa_nonempty _ Na),
      (@sub_no_match _ tb pb_nonempty _ Nb),
      (@sub_no_match _ ta pa_nonempty _ Na).
  - assert (Hlt : length rest < n).
    { subst n. rewrite !length_app. destruct m; [congruence|simpl; lia]. }
    pose proof (IH _ Hlt rest eq_refl) as IHr.
    destruct HM as [HM|HM].
    + apply (@commute_step pa pb qa ta tb); auto.
      now rewrite apart_sym.
    + symmetry. apply (@commute_step pb pa qb tb ta); auto.
      intros k Hk. destruct (Hg k Hk). now split.
Qed.

End Commute.

Lemma in_pairs (A : Type) (l : list A) a b :
  In a l -> In b l -> a = b \/ In (a, b) (pairs l) \/ In (b, a) (pairs l).
Proof.
  induction l as [|x l IH]; intros Ha Hb; [destruct Ha|].
  simpl. destruct Ha as [->|Ha], Hb as [->|Hb].
  - now left.
  - right. left. apply in_or_app. left. now apply in_map.
  - right. right. apply in_or_app. left. now apply in_map.
  - destruct (IH Ha Hb) as [H|[H|H]]; [now left | right; left | right; right];
      apply in_or_app; now right.
Qed.

(** Rules that commute two by two can be applied in any order. *)
Lemma fold_Permutation (A : Type) (f : text -> A -> text) l l' :
  Permutation l l' ->
  (forall a b, In a l -> In b l -> forall s, f (f s a) b = f (f s b) a) ->
  forall s, fold_left f l s = fold_left f l' s.
Proof.
  induction 1 as [|x l l' HP IH|x y l|l l' l'' HP1 IH1 HP2 IH2];
    intros Hc s.
  - reflexivity.
  - simpl. apply IH. intros a b Ha Hb. apply Hc; now right.
  - simpl. f_equal. apply Hc; simpl; auto.
  - rewrite IH1 by exact Hc. apply IH2.
    intros a b Ha Hb. apply Hc; apply (Permutation_in _ (Permutation_sym HP1));
      assumption.
Qed.

(* ================================================================= *)
(** ** A match right behind a text the pattern cannot touch *)

Section ScanBehind.

Variable p : pat.
Variable t : template.
Hypothesis p_nonempty : p <> [].


End ScanBehind.

(* ================================================================= *)
(** ** Counting the occurrences of a text *)








(* ================================================================= *)
(** ** The scripts are the patcher on their rules *)

Lemma patcher_run rules success w :
  patcher rules success w =
  match main_js w with
  | None => (Raise OSError, w)
  | Some content =>
      match run_rules rules content with
      | Ok out => (Ok tt, written w out success)
      | Raise e => (Raise e, w)
      end
  end.
Proof.
  unfold patcher, bind, read_main_js, lift, write_main_js, print, written.
  destruct (main_js w) as [content|]; [|reflexivity].
  destruct (run_rules rules content); [|reflexivity].
  cbn. now rewrite <- app_assoc.
Qed.

Lemma all_rules_compile pr :
  In pr all_rules -> compile_rule (fst pr) (snd pr) = Some (compiled pr).
Proof.
  intros H. repeat (destruct H as [<-|H]; [vm_compute; reflexivity|]).
  destruct H.
Qed.

Lemma all_rules_nonempty pr : In pr all_rules -> pattern_of pr <> [].
Proof.
  intros H. repeat (destruct H as [<-|H]; [vm_compute; discriminate|]).
  destruct H.
Qed.

Lemma all_rules_determinate pr :
  In pr all_rules -> determinate (pattern_of pr) = true.
Proof.
  intros H. repeat (destruct H as [<-|H]; [vm_compute; reflexivity|]).
  destruct H.
Qed.

Lemma re_sub_compiled pr s :
  In pr all_rules -> re_sub (fst pr) (snd pr) s = Ok (apply_rule (compiled pr) s).
Proof. intros H. unfold re_sub. now rewrite (all_rules_compile _ H). Qed.

Lemma in_medical pr : In pr Medical.rules -> In pr all_rules.
Proof. intros H. apply in_or_app. now left. Qed.

Lemma in_forvia pr : In pr Forvia.rules -> In pr all_rules.
Proof. intros H. apply in_or_app. now right. Qed.

(** A fold over rules of the scripts never raises. *)
Lemma run_rules_ok : forall rules s,
  (forall pr, In pr rules -> In pr all_rules) ->
  run_rules rules s =
  Ok (fold_left (fun c pr => apply_rule (compiled pr) c) rules s).
Proof.
  unfold run_rules. induction rules as [|pr rules IH]; intros s H;
    [reflexivity|].
  cbn [fold_left]. rewrite re_sub_compiled by (apply H; now left).
  apply IH. intros pr' Hin. apply H. now right.
Qed.

Lemma re_sub_in P R s :
  In (P, R) all_rules -> re_sub P R s = Ok (apply_rule (compiled (P, R)) s).
Proof. intros H. exact (re_sub_compiled (P, R) s H). Qed.

Ltac in_rules :=
  cbv [all_rules Medical.rules Forvia.rules app In];
  repeat (first [left; reflexivity | right]).

(** One [re.sub] call of a script, on the way through the monad. *)
Ltac sub_step P R :=
  rewrite (re_sub_in P R) by in_rules; cbv beta iota.

(** Each script is the patcher run on its list of rules. *)
Lemma medical_main_patcher w :
  Medical.main w = patcher Medical.rules Medical.success w.
Proof.
  rewrite patcher_run. unfold Medical.main, bind, read_main_js, lift.
  destruct (main_js w) as [content|]; [|reflexivity].
  rewrite run_rules_ok by exact in_medical.
  sub_step Medical.pattern1 Medical.replacement1.
  sub_step Medical.pattern2 Medical.replacement2.
  sub_step Medical.pattern3 Medical.replacement3.
  sub_step Medical.pattern4 Medical.replacement4.
  unfold write_main_js, print, written. cbn [fold_left Medical.rules main_js trace].
  now rewrite <- app_assoc.
Qed.

Lemma forvia_main_patcher w :
  Forvia.main w = patcher Forvia.rules Forvia.success w.
Proof.
  rewrite patcher_run.
  unfold Forvia.main, Forvia.update_forvia_integration, bind, read_main_js,
    lift.
  destruct (main_js w) as [content|]; [|reflexivity].
  rewrite run_rules_ok by exact in_forvia.
  sub_step Forvia.pattern1 Forvia.replacement1.
  sub_step Forvia.pattern2 Forvia.replacement2.
  sub_step Forvia.pattern3 Forvia.replacement3.
  sub_step Forvia.pattern4 Forvia.replacement4.
  sub_step Forvia.pattern5 Forvia.replacement5.
  unfold write_main_js, print, written. cbn [fold_left Forvia.rules main_js trace].
  now rewrite <- app_assoc.
Qed.

(* ================================================================= *)
(** ** The shape of the nine rules *)

(** The rules that keep the match and append a block to it. *)
Lemma appending_rules :
  tpl (compiled medical2) = TRef 1 :: map TLit medical_block /\
  tpl (compiled medical3) = TRef 1 :: map TLit medical_reset /\
  tpl (compiled forvia2) = TRef 1 :: map TLit forvia_block /\
  tpl (compiled forvia4) = TRef 1 :: map TLit forvia_reset_overview /\
  tpl (compiled forvia5) = TRef 1 :: map TLit forvia_reset_areas.
Proof. repeat split; vm_compute; reflexivity. Qed.

(** The rules that put a fixed text in place of the match. *)
Lemma rewriting_rules :
  tpl (compiled medical1)
    = map TLit (text_of_string Medical.replacement1) /\
  tpl (compiled medical4)
    = map TLit (text_of_string Medical.replacement4) /\
  tpl (compiled forvia1)
    = map TLit (text_of_string Forvia.replacement1) /\
  tpl (compiled forvia3)
    = map TLit (text_of_string Forvia.replacement3).
Proof. repeat split; vm_compute; reflexivity. Qed.

(** The rewriting rules: the text they look for and the text they put. *)
Lemma rewriting_patterns :
  pattern_of medical1 = lits condition_line /\
  tpl (compiled medical1) = map TLit medical_condition_line /\
  pattern_of medical4 = lits old_comment /\
  tpl (compiled medical4) = map TLit medical_comment /\
  pattern_of forvia1 = lits medical_condition /\
  tpl (compiled forvia1) = map TLit forvia_condition /\
  pattern_of forvia3 = lits medical_comment /\
  tpl (compiled forvia3) = map TLit forvia_comment.
Proof. repeat split; vm_compute; reflexivity. Qed.

(** Each rule either appends a block to its match or puts a longer text
    that holds the old one in its place. *)
Lemma rule_shape pr :
  In pr all_rules ->
  (tpl (compiled pr)
   = TRef 1 :: map TLit (expand (tl (tpl (compiled pr))) []) /\
   gain pr = length (expand (tl (tpl (compiled pr))) []))
  \/
  (pattern_of pr = lits (lit_text (pattern_of pr)) /\
   tpl (compiled pr) = map TLit (expand (tpl (compiled pr)) []) /\
   length (expand (tpl (compiled pr)) [])
   = length (lit_text (pattern_of pr)) + gain pr /\
   subseqb (lit_text (pattern_of pr)) (expand (tpl (compiled pr)) []) = true).
Proof.
  intros H.
  repeat (destruct H as [<-|H];
          [first [ left; split; vm_compute; reflexivity
                 | right; repeat split; vm_compute; reflexivity ]|]).
  destruct H.
Qed.

(** What a rule writes for a match is a text of [out_pat]. *)
Lemma out_pat_Matches pr m :
  In pr all_rules -> Matches (pattern_of pr) m ->
  Matches (out_pat pr) (expand (tpl (compiled pr)) m).
Proof.
  intros Hin HM. unfold out_pat.
  destruct (rule_shape pr Hin) as [[HT _]|(_ & HT & _)].
  - remember (expand (tl (tpl (compiled pr))) []) as b eqn:Hb. clear Hb.
    rewrite HT, expand_insert, expand_literal.
    apply (@Matches_app _ _ HM). apply Matches_lits.
  - remember (expand (tpl (compiled pr)) []) as R eqn:HR. clear HR.
    rewrite HT.
    assert (E : match map TLit R with
                | TRef _ :: t => pattern_of pr ++ lits (expand t [])
                | t => lits (expand t [])
                end = lits R).
    { destruct R as [|c R]; [reflexivity|].
      change (lits (expand (map TLit (c :: R)) []) = lits (c :: R)).
      now rewrite expand_literal. }
    rewrite E, expand_literal. apply Matches_lits.
Qed.

Lemma rule_actions_in pr a : In (pr, a) rule_actions -> In pr all_rules.
Proof.
  intros H. repeat (destruct H as [H|H]; [injection H as <- _; in_rules|]).
  destruct H.
Qed.

Lemma appends_expand pr block m :
  tpl (compiled pr) = TRef 1 :: map TLit block ->
  expand (tpl (compiled pr)) m = replacement (Appends block) m /\
  length (replacement (Appends block) m) = length m + growth (Appends block).
Proof.
  intros ->. rewrite expand_insert. simpl. now rewrite length_app.
Qed.

Lemma rewrites_expand pr old new m :
  pattern_of pr = lits old -> tpl (compiled pr) = map TLit new ->
  length old <= length new ->
  Matches (pattern_of pr) m ->
  expand (tpl (compiled pr)) m = replacement (Rewrites old new) m /\
  length (replacement (Rewrites old new) m)
  = length m + growth (Rewrites old new).
Proof.
  intros HP -> Hl HM. rewrite HP in HM. apply Matches_lits_inv in HM.
  subst m. rewrite expand_literal. simpl. split; [reflexivity | lia].
Qed.

(** The table says what the compiled templates do. *)
Lemma rule_actions_sound pr a m :
  In (pr, a) rule_actions -> Matches (pattern_of pr) m ->
  In pr all_rules /\
  expand (tpl (compiled pr)) m = replacement a m /\
  length (replacement a m) = length m + growth a.
Proof.
  destruct appending_rules as (M2 & M3 & F2 & F4 & F5).
  destruct rewriting_patterns as (P1 & T1 & P4 & T4 & Q1 & U1 & Q3 & U3).
  intros H HM.
  repeat (destruct H as [H|H];
          [injection H as <- <-; split; [in_rules|];
           first [ now apply appends_expand
                 | apply rewrites_expand;
                   [assumption | assumption | vm_compute; lia | exact HM] ]|]).
  destruct H.
Qed.




(* ================================================================= *)
(** ** One rule on one buffer *)

Lemma apply_rule_no_match pr s :
  In pr all_rules -> ~ Contains (pattern_of pr) s ->
  apply_rule (compiled pr) s = s.
Proof.
  intros Hin Hno. apply sub_no_match.
  - exact (all_rules_nonempty pr Hin).
  - apply NoMatch_iff, Hno.
Qed.

Lemma apply_rule_Scan pr s segs tail :
  In pr all_rules -> Scan (pattern_of pr) s segs tail ->
  apply_rule (compiled pr) s = replaced (tpl (compiled pr)) segs tail.
Proof.
  intros Hin HS. apply sub_Scan; [exact (all_rules_nonempty pr Hin) | exact HS].
Qed.

Lemma Scan_uncut p s segs tail : Scan p s segs tail -> s = uncut segs tail.
Proof.
  induction 1 as [tail H|gap m rest segs tail Hg Hm _ IH]; [reflexivity|].
  unfold uncut in *. simpl. rewrite <- !app_assoc. now rewrite <- IH.
Qed.

(** The output of a rule on a cut, in terms of the table. *)
Lemma replaced_by_cut pr a s segs tail :
  In (pr, a) rule_actions -> Cut (pattern_of pr) s segs tail ->
  s = uncut segs tail /\
  replaced (tpl (compiled pr)) segs tail = replaced_by a segs tail /\
  length (replaced_by a segs tail) = length s + length segs * growth a.
Proof.
  intros Hin. unfold uncut, replaced, replaced_by.
  induction 1 as [tail H|gap m rest segs tail Hg Hm _ (IH0 & IH1 & IH2)];
    simpl.
  - repeat split. lia.
  - destruct (rule_actions_sound pr a m Hin Hm) as (_ & E & L).
    apply app_inv_tail_iff in IH1 as IH1'.
    rewrite <- !app_assoc, E. rewrite <- IH0, IH1.
    repeat split. rewrite !length_app in *. lia.
Qed.

(** A buffer that matches none of the rules goes through them unchanged. *)
Lemma run_rules_no_match : forall rules s,
  (forall pr, In pr rules -> In pr all_rules) ->
  Forall (fun pr => ~ Contains (pattern_of pr) s) rules ->
  run_rules rules s = Ok s.
Proof.
  intros rules s Hin Hno. rewrite run_rules_ok by exact Hin. f_equal.
  induction Hno as [|pr rules Hpr _ IH]; [reflexivity|].
  cbn [fold_left]. rewrite apply_rule_no_match; [|apply Hin; now left|exact Hpr].
  apply IH. intros pr' H. apply Hin. now right.
Qed.

(** C4. For every rule of either script and every buffer in which the
    rule's pattern matches no piece of text, [re.sub] with that rule
    returns the buffer as it was, and returns normally. *)
Theorem C4_rule_without_match_is_noop : forall pr s,
  In pr all_rules ->
  ~ Contains (pattern_of pr) s ->
  re_sub (fst pr) (snd pr) s = Ok s.
Proof.
  intros pr s Hin Hno. rewrite re_sub_compiled by exact Hin.
  f_equal. now apply apply_rule_no_match.
Qed.

Lemma C4_witness :
  re_sub Forvia.pattern2 Forvia.replacement2 sensor_block = Ok sensor_block.
Proof.
  apply (C4_rule_without_match_is_noop forvia2 sensor_block).
  - in_rules.
  - apply containsb_false; [vm_compute; discriminate | vm_compute; reflexivity].
Defined.

(** C5. A buffer that matches none of a script's patterns is written
    back by the full run exactly as it was read, and the run prints its
    success message after the write. *)
Theorem C5_unmatched_buffer_written_back : forall w buf,
  main_js w = Some buf ->
  (Forall (fun pr => ~ Contains (pattern_of pr) buf) Medical.rules ->
   Medical.main w = (Ok tt, written w buf Medical.success)) /\
  (Forall (fun pr => ~ Contains (pattern_of pr) buf) Forvia.rules ->
   Forvia.main w = (Ok tt, written w buf Forvia.success)).
Proof.
  intros w buf Hw. split; intros Hno.
  - rewrite medical_main_patcher, patcher_run, Hw.
    now rewrite (run_rules_no_match _ _ in_medical Hno).
  - rewrite forvia_main_patcher, patcher_run, Hw.
    now rewrite (run_rules_no_match _ _ in_forvia Hno).
Qed.

Ltac no_match :=
  repeat constructor;
  (apply containsb_false; [vm_compute; discriminate | vm_compute; reflexivity]).

Lemma C5_witness :
  Medical.main (World (Some plain_js) [])
  = (Ok tt, written (World (Some plain_js) []) plain_js Medical.success) /\
  Forvia.main (World (Some plain_js) [])
  = (Ok tt, written (World (Some plain_js) []) plain_js Forvia.success).
Proof.
  destruct (C5_unmatched_buffer_written_back
              (World (Some plain_js) []) plain_js eq_refl) as [Hm Hf].
  split; [apply Hm | apply Hf]; no_match.
Defined.

(** C8. For every rule of either script: when the buffer is cut into N
    non-overlapping matches of the pattern (the gaps between them and
    the tail hold no match), one application of the rule replaces every
    one of the N matches by its replacement text (the match with the
    block appended, or the new text) and copies the gaps and the tail;
    the output is longer than the input by N times the growth of the
    rule. *)
Theorem C8_every_match_replaced : forall pr a s segs tail N,
  In (pr, a) rule_actions ->
  Cut (pattern_of pr) s segs tail ->
  length segs = N ->
  s = uncut segs tail /\
  re_sub (fst pr) (snd pr) s = Ok (replaced_by a segs tail) /\
  length (replaced_by a segs tail) = length s + N * growth a.
Proof.
  intros pr a s segs tail N Hin HC <-.
  pose proof (rule_actions_in pr a Hin) as Hpr.
  destruct (replaced_by_cut pr a s segs tail Hin HC) as (Hs & Hr & Hl).
  split; [exact Hs|]. split; [|exact Hl].
  rewrite re_sub_compiled by exact Hpr. f_equal. rewrite <- Hr.
  apply apply_rule_Scan; [exact Hpr|].
  apply Cut_Scan; [now apply all_rules_determinate | exact HC].
Qed.

Lemma C8_witness :
  two_resets = uncut two_resets_cut (lines ["    }"%string]) /\
  re_sub Medical.pattern3 Medical.replacement3 two_resets
  = Ok (sensor_reset ++ medical_reset
        ++ lines ["      moveCamera();"%string]
        ++ sensor_reset ++ medical_reset ++ lines ["    }"%string]) /\
  length (sensor_reset ++ medical_reset
          ++ lines ["      moveCamera();"%string]
          ++ sensor_reset ++ medical_reset ++ lines ["    }"%string])
  = length two_resets + 2 * 145.
Proof.
  apply (C8_every_match_replaced medical3 (Appends medical_reset) two_resets
           two_resets_cut (lines ["    }"%string]) 2).
  - cbv [rule_actions In]. auto 10.
  - apply Scan_Cut, scan_Scan; [vm_compute; discriminate | vm_compute; reflexivity].
  - reflexivity.
Defined.

(* ================================================================= *)
(** ** A buffer with exactly one match *)

(** Each of the three buffers holds one match only. *)
Lemma one_match_each :
  match_starts (pattern_of medical2) sensor_one_line = [0] /\
  match_starts (pattern_of medical1) old_and_new_condition = [0] /\
  match_starts (pattern_of forvia1) medical_condition_line = [4].
Proof. repeat split; vm_compute; reflexivity. Qed.




(* ================================================================= *)
(** ** Running a script twice, and the order of the rules *)

(** C6. The rule sequence is not idempotent: on a file that holds one
    sensorSensei block, a second run of the medical script does not
    reproduce the result of the first run but appends the medical block
    once more; the same happens with the forvia script on a medical
    block. *)
Theorem C6_not_idempotent :
  (exists buf once twice,
      file_after Medical.main buf = Some once /\
      file_after Medical.main once = Some twice /\
      twice <> once /\
      count medical_block once = 1 /\ count medical_block twice = 2) /\
  (exists buf once twice,
      file_after Forvia.main buf = Some once /\
      file_after Forvia.main once = Some twice /\
      twice <> once /\
      count forvia_block once = 1 /\ count forvia_block twice = 2).
Proof.
  split.
  - exists sensor_block. eexists. eexists.
    split; [vm_compute; reflexivity|].
    split; [vm_compute; reflexivity|].
    split; [|split; vm_compute; reflexivity].
    intros H. apply (f_equal (@length _)) in H. vm_compute in H. discriminate.
  - exists medical_block. eexists. eexists.
    split; [vm_compute; reflexivity|].
    split; [vm_compute; reflexivity|].
    split; [|split; vm_compute; reflexivity].
    intros H. apply (f_equal (@length _)) in H. vm_compute in H. discriminate.
Qed.

(** Within each script every two rules are independent. *)
Lemma script_rules_independent :
  forallb (fun ab => independent (fst ab) (snd ab)) (pairs Medical.rules)
  = true /\
  forallb (fun ab => independent (fst ab) (snd ab)) (pairs Forvia.rules)
  = true.
Proof. split; vm_compute; reflexivity. Qed.

Lemma independent_commute a b :
  In a all_rules -> In b all_rules -> independent a b = true ->
  forall s,
    apply_rule (compiled b) (apply_rule (compiled a) s)
    = apply_rule (compiled a) (apply_rule (compiled b) s).
Proof.
  intros Ha Hb. unfold independent.
  destruct (self_apart (pattern_of a)) eqn:Sa; [|discriminate].
  destruct (self_apart (pattern_of b)) eqn:Sb; [|discriminate].
  destruct (apart (pattern_of a) (pattern_of b)) eqn:Aab; [|discriminate].
  destruct (apart (pattern_of b) (out_pat a)) eqn:Aba; [|discriminate].
  intros Aab' s. unfold apply_rule.
  apply (sub_commute (pattern_of a) (pattern_of b) (out_pat a) (out_pat b));
    try assumption.
  - now apply all_rules_nonempty.
  - now apply all_rules_nonempty.
  - intros m. now apply out_pat_Matches.
  - intros m. now apply out_pat_Matches.
Qed.

Lemma commute_in rules :
  (forall pr, In pr rules -> In pr all_rules) ->
  forallb (fun ab => independent (fst ab) (snd ab)) (pairs rules) = true ->
  forall a b, In a rules -> In b rules ->
  forall s,
    apply_rule (compiled b) (apply_rule (compiled a) s)
    = apply_rule (compiled a) (apply_rule (compiled b) s).
Proof.
  intros Hin Hall a b Ha Hb s. rewrite forallb_forall in Hall.
  destruct (in_pairs _ rules a b Ha Hb) as [->|[H|H]].
  - reflexivity.
  - apply independent_commute; auto. exact (Hall _ H).
  - symmetry. apply independent_commute; auto. exact (Hall _ H).
Qed.

Lemma run_rules_Permutation rules rules' buf :
  (forall pr, In pr rules -> In pr all_rules) ->
  forallb (fun ab => independent (fst ab) (snd ab)) (pairs rules) = true ->
  Permutation rules rules' ->
  run_rules rules' buf = run_rules rules buf.
Proof.
  intros Hin Hall HP.
  rewrite (run_rules_ok rules') , (run_rules_ok rules) by
    (try exact Hin; intros pr H; apply Hin;
     exact (Permutation_in _ (Permutation_sym HP) H)).
  f_equal. symmetry. apply fold_Permutation; [exact HP|].
  intros a b Ha Hb s. now apply (commute_in rules).
Qed.

Lemma medical_order_free rules' buf :
  Permutation Medical.rules rules' ->
  run_rules rules' buf = run_rules Medical.rules buf.
Proof.
  apply run_rules_Permutation; [exact in_medical|].
  exact (proj1 script_rules_independent).
Qed.

Lemma forvia_order_free rules' buf :
  Permutation Forvia.rules rules' ->
  run_rules rules' buf = run_rules Forvia.rules buf.
Proof.
  apply run_rules_Permutation; [exact in_forvia|].
  exact (proj2 script_rules_independent).
Qed.

(** C7, refuted as stated.  Within a run the order of the rules does not
    matter: no reordering of the rules of a script (swapping two rules
    is one) changes the result, on any buffer. *)
Lemma C7_counterexample :
  ~ order_matters Medical.rules /\ ~ order_matters Forvia.rules.
Proof.
  split; intros (rules' & buf & HP & Hne); apply Hne.
  - now apply medical_order_free.
  - now apply forvia_order_free.
Qed.

(** C7, amended.  Each script is the patcher on its list of rules, that
    is the left-to-right fold of [re.sub] in which every rule works on
    the output of the rules before it.  The rules of one script can be
    applied in any order with the same result on every buffer.  The
    order that matters is that of the two scripts: on the old condition
    line, medical rule 1 followed by forvia rule 1 does not give what
    the opposite order gives, and neither do the two rule lists as
    wholes. *)
Theorem C7_sequential_and_order_free_within_a_script :
  (forall w, Medical.main w = patcher Medical.rules Medical.success w) /\
  (forall w, Forvia.main w = patcher Forvia.rules Forvia.success w) /\
  (forall rules pr s,
      run_rules (rules ++ [pr]) s =
      match run_rules rules s with
      | Ok content => re_sub (fst pr) (snd pr) content
      | Raise e => Raise e
      end) /\
  (forall rules' buf,
      Permutation Medical.rules rules' ->
      run_rules rules' buf = run_rules Medical.rules buf) /\
  (forall rules' buf,
      Permutation Forvia.rules rules' ->
      run_rules rules' buf = run_rules Forvia.rules buf) /\
  run_rules [medical1; forvia1] condition_line
  <> run_rules [forvia1; medical1] condition_line /\
  run_rules (Medical.rules ++ Forvia.rules) condition_line
  <> run_rules (Forvia.rules ++ Medical.rules) condition_line.
Proof.
  split; [exact medical_main_patcher|].
  split; [exact forvia_main_patcher|].
  split; [|split; [|split; [|split]]].
  - intros rules pr s. unfold run_rules. now rewrite fold_left_app.
  - intros rules' buf. apply medical_order_free.
  - intros rules' buf. apply forvia_order_free.
  - intros H. vm_compute in H. discriminate.
  - intros H. vm_compute in H. discriminate.
Qed.

Lemma C7_witness :
  run_rules (rev Medical.rules) full_before_medical
  = run_rules Medical.rules full_before_medical /\
  run_rules (rev Forvia.rules) after_medical
  = run_rules Forvia.rules after_medical.
Proof.
  destruct C7_sequential_and_order_free_within_a_script
    as (_ & _ & _ & Hm & Hf & _).
  split; [apply Hm | apply Hf]; apply Permutation_rev.
Defined.

(* ================================================================= *)
(** ** Faults *)

(** C9. A run that cannot read main.js raises and leaves the world as it
    was: nothing is written, nothing is printed.  Any run that raises
    leaves the world as it was.  A run that returns has written the file
    once, and what it wrote is the content it read with all the rules
    of the script applied. *)
Theorem C9_fault_before_write_leaves_file : forall w,
  (main_js w = None ->
   Medical.main w = (Raise OSError, w) /\ Forvia.main w = (Raise OSError, w)) /\
  (forall e w',
      Medical.main w = (Raise e, w') \/ Forvia.main w = (Raise e, w') ->
      w' = w) /\
  (forall w',
      Medical.main w = (Ok tt, w') ->
      exists content out,
        main_js w = Some content /\
        run_rules Medical.rules content = Ok out /\
        w' = written w out Medical.success) /\
  (forall w',
      Forvia.main w = (Ok tt, w') ->
      exists content out,
        main_js w = Some content /\
        run_rules Forvia.rules content = Ok out /\
        w' = written w out Forvia.success).
Proof.
  intros w. rewrite medical_main_patcher, forvia_main_patcher, !patcher_run.
  split; [|split; [|split]].
  - intros H. rewrite H. split; reflexivity.
  - intros e w' [H|H]; destruct (main_js w) as [content|].
    + destruct (run_rules Medical.rules content);
        [discriminate H | now injection H as _ <-].
    + now injection H as _ <-.
    + destruct (run_rules Forvia.rules content);
        [discriminate H | now injection H as _ <-].
    + now injection H as _ <-.
  - intros w' H. destruct (main_js w) as [content|]; [|discriminate H].
    destruct (run_rules Medical.rules content) as [out|] eqn:E;
      [|discriminate H].
    injection H as <-. exists content, out.
    split; [reflexivity|]. split; [exact E | reflexivity].
  - intros w' H. destruct (main_js w) as [content|]; [|discriminate H].
    destruct (run_rules Forvia.rules content) as [out|] eqn:E;
      [|discriminate H].
    injection H as <-. exists content, out.
    split; [reflexivity|]. split; [exact E | reflexivity].
Qed.

Lemma C9_witness :
  Medical.main (World None []) = (Raise OSError, World None []) /\
  Forvia.main (World None []) = (Raise OSError, World None []).
Proof.
  destruct (C9_fault_before_write_leaves_file (World None [])) as [H _].
  apply H. reflexivity.
Defined.

(* ================================================================= *)
(** ** What the forvia patterns need *)

Lemma forvia_patterns_need_medical pr m :
  In pr Forvia.rules -> Matches (pattern_of pr) m -> Infix medical_word m.
Proof.
  intros Hin. apply has_lits_Infix. revert Hin.
  intros H. repeat (destruct H as [<-|H]; [vm_compute; reflexivity|]).
  destruct H.
Qed.

(** Where the text comes from: forvia patterns 1, 2, 3 and 5 match what
    the replacements of medical rules 1, 2, 4 and 3 write; forvia
    pattern 4 (the reset "when going back to overview") matches nothing
    that the medical script writes. *)
Lemma medical_output_feeds_forvia :
  containsb (pattern_of forvia1) (text_of_string Medical.replacement1) = true /\
  containsb (pattern_of forvia2) medical_block = true /\
  containsb (pattern_of forvia3) (text_of_string Medical.replacement4) = true /\
  containsb (pattern_of forvia5) medical_reset = true /\
  forallb (fun out => negb (containsb (pattern_of forvia4) out))
    [ text_of_string Medical.replacement1; medical_block; medical_reset;
      text_of_string Medical.replacement4 ] = true.
Proof. repeat split; vm_compute; reflexivity. Qed.

(** C10. Every text that a pattern of the forvia script matches holds
    the word [medical]; so on a buffer without that word the forvia
    script changes nothing: it writes the buffer back as it read it. *)
Theorem C10_forvia_needs_medical_text :
  (forall pr m,
      In pr Forvia.rules -> Matches (pattern_of pr) m ->
      Infix medical_word m) /\
  (forall w buf,
      main_js w = Some buf ->
      ~ Infix medical_word buf ->
      Forall (fun pr => ~ Contains (pattern_of pr) buf) Forvia.rules /\
      Forvia.main w = (Ok tt, written w buf Forvia.success)).
Proof.
  split; [exact forvia_patterns_need_medical|].
  intros w buf Hw Hno.
  assert (HF : Forall (fun pr => ~ Contains (pattern_of pr) buf) Forvia.rules).
  { apply Forall_forall. intros pr Hin (m & HM & Hi). apply Hno.
    apply Infix_trans with m; [|exact Hi].
    now apply forvia_patterns_need_medical with pr. }
  split; [exact HF|].
  rewrite forvia_main_patcher, patcher_run, Hw.
  now rewrite (run_rules_no_match _ _ in_forvia HF).
Qed.

Lemma C10_witness :
  Forall (fun pr => ~ Contains (pattern_of pr) before_medical) Forvia.rules /\
  Forvia.main (World (Some before_medical) [])
  = (Ok tt, written (World (Some before_medical) []) before_medical
              Forvia.success).
Proof.
  destruct C10_forvia_needs_medical_text as [_ H].
  apply (H (World (Some before_medical) []) before_medical eq_refl).
  intros Hi. apply Contains_lits in Hi. revert Hi.
  apply containsb_false; [vm_compute; discriminate | vm_compute; reflexivity].
Defined.

(* ================================================================= *)
(** ** Text that a rule leaves alone, text that a rule appends to *)

Lemma apply_rule_first_hit pr s :
  In pr all_rules -> Contains (pattern_of pr) s ->
  exists pre m post,
    Matches (pattern_of pr) m /\
    apply_rule (compiled pr) s
    = pre ++ expand (tpl (compiled pr)) m ++ post.
Proof.
  intros Hin HC. apply Contains_hit in HC as [k Hk].
  exact (sub_first_hit (tpl (compiled pr)) (all_rules_nonempty pr Hin) s k Hk).
Qed.

Lemma apply_rule_keeps pr q u s :
  In pr all_rules -> apart (pattern_of pr) q = true -> Matches q u ->
  Infix u s -> Infix u (apply_rule (compiled pr) s).
Proof.
  intros Hin Ha Hu Hi.
  exact (sub_keeps_apart (tpl (compiled pr)) (all_rules_nonempty pr Hin)
           Ha Hu Hi).
Qed.

Lemma apply_rule_appends pr ins m s :
  In pr all_rules -> self_apart (pattern_of pr) = true ->
  tpl (compiled pr) = TRef 1 :: map TLit ins ->
  Matches (pattern_of pr) m -> Infix m s ->
  Infix (m ++ ins) (apply_rule (compiled pr) s).
Proof.
  intros Hin Hself Ht HM (pre & post & ->).
  pose proof (all_rules_nonempty pr Hin) as Hp.
  pose proof (@SameEnd_of_self_apart _ Hself) as Hend.
  assert (Hd : determinate (pattern_of pr) = true).
  { unfold self_apart in Hself. now apply andb_true_iff in Hself. }
  pose proof (@match_here_exact _ m post Hd HM) as E.
  destruct (@sub_reaches _ (tpl (compiled pr)) Hp Hend pre m post E)
    as (w & pre' & post' & Hs).
  unfold apply_rule. fold (pattern_of pr). rewrite Hs, Ht, expand_insert.
  exists (pre' ++ w), post'. now rewrite <- !app_assoc.
Qed.

(* ================================================================= *)
(** ** The medical script on the condition line *)

(** The new end of the condition is apart from what rules 2 to 4 match. *)
Lemma condition_apart :
  apart (pattern_of medical2) (lits condition_with_medical) = true /\
  apart (pattern_of medical3) (lits condition_with_medical) = true /\
  apart (pattern_of medical4) (lits condition_with_medical) = true.
Proof. repeat split; vm_compute; reflexivity. Qed.

Lemma medical1_writes_condition s :
  Infix condition_line s ->
  Infix condition_with_medical (apply_rule (compiled medical1) s).
Proof.
  intros Hi.
  assert (Hin : In medical1 all_rules) by in_rules.
  assert (HC : Contains (pattern_of medical1) s).
  { change (pattern_of medical1) with (lits condition_line).
    now apply Contains_lits. }
  destruct (apply_rule_first_hit medical1 s Hin HC)
    as (pre & m & post & _ & ->).
  destruct rewriting_rules as (-> & _). rewrite expand_literal.
  apply Infix_app_l, Infix_app_r, Contains_lits, containsb_true.
  vm_compute. reflexivity.
Qed.

(** C2. When main.js holds the condition line
    [if (... 'trashTruck' || ... 'convoyeur' || ... 'sensorSensei')],
    the medical script runs through and the file it writes holds
    [|| object.userData.type === 'sensorSensei' || object.userData.type === 'medical')]. *)
Theorem C2_condition_gets_medical : forall w buf,
  main_js w = Some buf ->
  Infix condition_line buf ->
  exists out,
    Medical.main w = (Ok tt, written w out Medical.success) /\
    Infix condition_with_medical out.
Proof.
  intros w buf Hw Hi.
  rewrite medical_main_patcher, patcher_run, Hw.
  rewrite run_rules_ok by exact in_medical.
  eexists. split; [reflexivity|]. cbn [fold_left Medical.rules].
  destruct condition_apart as (A2 & A3 & A4).
  pose proof (Matches_lits condition_with_medical) as HT.
  apply (apply_rule_keeps medical4 _ _ _ ltac:(in_rules) A4 HT).
  apply (apply_rule_keeps medical3 _ _ _ ltac:(in_rules) A3 HT).
  apply (apply_rule_keeps medical2 _ _ _ ltac:(in_rules) A2 HT).
  now apply medical1_writes_condition.
Qed.

Lemma C2_witness :
  exists out,
    Medical.main (World (Some before_medical) [])
    = (Ok tt, written (World (Some before_medical) []) out Medical.success) /\
    Infix condition_with_medical out.
Proof.
  apply (C2_condition_gets_medical (World (Some before_medical) [])
           before_medical eq_refl).
  exists (lines ["      "%string]),
         (text_of_string " {" ++ sensor_block ++ lines ["      }"%string]
          ++ sensor_reset).
  reflexivity.
Defined.

(* ================================================================= *)
(** ** The forvia script on a file the medical script has patched *)

Lemma forvia_self_apart :
  self_apart (pattern_of forvia2) = true /\
  self_apart (pattern_of forvia4) = true /\
  self_apart (pattern_of forvia5) = true.
Proof. repeat split; vm_compute; reflexivity. Qed.

(** What keeps the medical modal block and the inserted forvia block
    whole through the other rules. *)
Lemma modal_block_apart :
  apart (pattern_of forvia1) (pattern_of forvia2) = true /\
  apart (pattern_of forvia3) medical_then_forvia = true /\
  apart (pattern_of forvia4) medical_then_forvia = true /\
  apart (pattern_of forvia5) medical_then_forvia = true.
Proof. repeat split; vm_compute; reflexivity. Qed.



Lemma forvia_modal_block m s :
  Matches (pattern_of forvia2) m -> Infix m s ->
  Infix (m ++ forvia_block) (forvia_all s).
Proof.
  intros HM Hi. unfold forvia_all.
  destruct modal_block_apart as (A1 & A3 & A4 & A5).
  destruct forvia_self_apart as (S2 & _ & _).
  destruct appending_rules as (_ & _ & T2 & _ & _).
  assert (HM' : Matches medical_then_forvia (m ++ forvia_block))
    by (apply Matches_app; [exact HM | apply Matches_lits]).
  apply (apply_rule_keeps forvia5 _ _ _ ltac:(in_rules) A5 HM').
  apply (apply_rule_keeps forvia4 _ _ _ ltac:(in_rules) A4 HM').
  apply (apply_rule_keeps forvia3 _ _ _ ltac:(in_rules) A3 HM').
  apply (apply_rule_appends forvia2 _ _ _ ltac:(in_rules) S2 T2 HM).
  apply (apply_rule_keeps forvia1 _ _ _ ltac:(in_rules) A1 HM Hi).
Qed.





(* ================================================================= *)
(** ** The scripts as functions on the text *)

Lemma run_medical s : run_rules Medical.rules s = Ok (medical_all s).
Proof. now rewrite run_rules_ok by exact in_medical. Qed.

Lemma run_forvia s : run_rules Forvia.rules s = Ok (forvia_all s).
Proof. now rewrite run_rules_ok by exact in_forvia. Qed.

Lemma medical_main_run w buf :
  main_js w = Some buf ->
  Medical.main w = (Ok tt, written w (medical_all buf) Medical.success).
Proof.
  intros Hw. now rewrite medical_main_patcher, patcher_run, Hw, run_medical.
Qed.

Lemma forvia_main_run w buf :
  main_js w = Some buf ->
  Forvia.main w = (Ok tt, written w (forvia_all buf) Forvia.success).
Proof.
  intros Hw. now rewrite forvia_main_patcher, patcher_run, Hw, run_forvia.
Qed.

(** A rule that puts the fixed text [R] for the fixed text [P]. *)
Lemma apply_rule_rewrites pr P R s :
  In pr all_rules -> pattern_of pr = lits P ->
  tpl (compiled pr) = map TLit R ->
  Infix P s -> Infix R (apply_rule (compiled pr) s).
Proof.
  intros Hin HP HR Hi.
  assert (HC : Contains (pattern_of pr) s)
    by (rewrite HP; now apply Contains_lits).
  destruct (apply_rule_first_hit pr s Hin HC) as (pre & m & post & _ & ->).
  rewrite HR, expand_literal. apply Infix_app_l, Infix_app_r, Infix_refl.
Qed.

(* ================================================================= *)
(** ** The medical script, rule by rule *)

Lemma medical_self_apart :
  self_apart (pattern_of medical2) = true /\
  self_apart (pattern_of medical3) = true.
Proof. split; vm_compute; reflexivity. Qed.

Lemma sensor_block_apart :
  apart (pattern_of medical1) (pattern_of medical2) = true /\
  apart (pattern_of medical3) sensor_then_medical = true /\
  apart (pattern_of medical4) sensor_then_medical = true.
Proof. repeat split; vm_compute; reflexivity. Qed.


Lemma old_comment_apart :
  apart (pattern_of medical1) (lits old_comment) = true /\
  apart (pattern_of medical2) (lits old_comment) = true /\
  apart (pattern_of medical3) (lits old_comment) = true.
Proof. repeat split; vm_compute; reflexivity. Qed.

Lemma medical_condition_apart :
  apart (pattern_of medical2) (lits medical_condition_line) = true /\
  apart (pattern_of medical3) (lits medical_condition_line) = true /\
  apart (pattern_of medical4) (lits medical_condition_line) = true.
Proof. repeat split; vm_compute; reflexivity. Qed.

Lemma medical_modal_block m s :
  Matches (pattern_of medical2) m -> Infix m s ->
  Infix (m ++ medical_block) (medical_all s).
Proof.
  intros HM Hi. unfold medical_all.
  destruct sensor_block_apart as (A1 & A3 & A4).
  destruct medical_self_apart as (S2 & _).
  destruct appending_rules as (T2 & _).
  assert (HM' : Matches sensor_then_medical (m ++ medical_block))
    by (apply Matches_app; [exact HM | apply Matches_lits]).
  apply (apply_rule_keeps medical4 _ _ _ ltac:(in_rules) A4 HM').
  apply (apply_rule_keeps medical3 _ _ _ ltac:(in_rules) A3 HM').
  apply (apply_rule_appends medical2 _ _ _ ltac:(in_rules) S2 T2 HM).
  apply (apply_rule_keeps medical1 _ _ _ ltac:(in_rules) A1 HM Hi).
Qed.


Lemma medical_comment_line s :
  Infix old_comment s -> Infix medical_comment (medical_all s).
Proof.
  intros Hi. unfold medical_all.
  destruct old_comment_apart as (A1 & A2 & A3).
  destruct rewriting_patterns as (_ & _ & P4 & T4 & _).
  pose proof (Matches_lits old_comment) as HM.
  apply (apply_rule_rewrites medical4 _ _ _ ltac:(in_rules) P4 T4).
  apply (apply_rule_keeps medical3 _ _ _ ltac:(in_rules) A3 HM).
  apply (apply_rule_keeps medical2 _ _ _ ltac:(in_rules) A2 HM).
  apply (apply_rule_keeps medical1 _ _ _ ltac:(in_rules) A1 HM Hi).
Qed.

Lemma medical_condition_whole s :
  Infix condition_line s -> Infix medical_condition_line (medical_all s).
Proof.
  intros Hi. unfold medical_all.
  destruct medical_condition_apart as (A2 & A3 & A4).
  destruct rewriting_patterns as (P1 & T1 & _).
  pose proof (Matches_lits medical_condition_line) as HM.
  apply (apply_rule_keeps medical4 _ _ _ ltac:(in_rules) A4 HM).
  apply (apply_rule_keeps medical3 _ _ _ ltac:(in_rules) A3 HM).
  apply (apply_rule_keeps medical2 _ _ _ ltac:(in_rules) A2 HM).
  apply (apply_rule_rewrites medical1 _ _ _ ltac:(in_rules) P1 T1 Hi).
Qed.





(** X3. When main.js holds the comment
    [// Handle objects that don't need camera movement (trashTruck, convoyeur, sensorSensei)],
    the file the medical script writes holds the comment with
    [, medical] added, and it holds the whole condition line with
    [medical] added when main.js held the old condition line. *)
Theorem X3_medical_comment_and_condition : forall w buf,
  main_js w = Some buf ->
  exists out,
    Medical.main w = (Ok tt, written w out Medical.success) /\
    (Infix old_comment buf -> Infix medical_comment out) /\
    (Infix condition_line buf -> Infix medical_condition_line out).
Proof.
  intros w buf Hw. exists (medical_all buf).
  split; [now apply medical_main_run|].
  split; [apply medical_comment_line | apply medical_condition_whole].
Qed.

Lemma X3_witness :
  exists out,
    Medical.main (World (Some full_before_medical) [])
    = (Ok tt, written (World (Some full_before_medical) []) out
                Medical.success) /\
    Infix medical_comment out /\ Infix medical_condition_line out.
Proof.
  destruct (X3_medical_comment_and_condition
              (World (Some full_before_medical) []) full_before_medical
              eq_refl) as (out & E & Hc & Hl).
  exists out. split; [exact E|]. split.
  - apply Hc, Contains_lits, containsb_true. vm_compute. reflexivity.
  - apply Hl, Contains_lits, containsb_true. vm_compute. reflexivity.
Defined.

(* ================================================================= *)
(** ** The forvia script on the condition and the comment *)

Lemma forvia_condition_apart :
  apart (pattern_of forvia2) (lits forvia_condition) = true /\
  apart (pattern_of forvia3) (lits forvia_condition) = true /\
  apart (pattern_of forvia4) (lits forvia_condition) = true /\
  apart (pattern_of forvia5) (lits forvia_condition) = true.
Proof. repeat split; vm_compute; reflexivity. Qed.

Lemma forvia_comment_apart :
  apart (pattern_of forvia1) (lits medical_comment) = true /\
  apart (pattern_of forvia2) (lits medical_comment) = true /\
  apart (pattern_of forvia4) (lits forvia_comment) = true /\
  apart (pattern_of forvia5) (lits forvia_comment) = true.
Proof. repeat split; vm_compute; reflexivity. Qed.

Lemma forvia_condition_added s :
  Infix medical_condition s -> Infix forvia_condition (forvia_all s).
Proof.
  intros Hi. unfold forvia_all.
  destruct forvia_condition_apart as (A2 & A3 & A4 & A5).
  destruct rewriting_patterns as (_ & _ & _ & _ & P1 & T1 & _).
  pose proof (Matches_lits forvia_condition) as HM.
  apply (apply_rule_keeps forvia5 _ _ _ ltac:(in_rules) A5 HM).
  apply (apply_rule_keeps forvia4 _ _ _ ltac:(in_rules) A4 HM).
  apply (apply_rule_keeps forvia3 _ _ _ ltac:(in_rules) A3 HM).
  apply (apply_rule_keeps forvia2 _ _ _ ltac:(in_rules) A2 HM).
  apply (apply_rule_rewrites forvia1 _ _ _ ltac:(in_rules) P1 T1 Hi).
Qed.

Lemma forvia_comment_line s :
  Infix medical_comment s -> Infix forvia_comment (forvia_all s).
Proof.
  intros Hi. unfold forvia_all.
  destruct forvia_comment_apart as (A1 & A2 & A4 & A5).
  destruct rewriting_patterns as (_ & _ & _ & _ & _ & _ & P3 & T3).
  pose proof (Matches_lits medical_comment) as HM.
  pose proof (Matches_lits forvia_comment) as HM'.
  apply (apply_rule_keeps forvia5 _ _ _ ltac:(in_rules) A5 HM').
  apply (apply_rule_keeps forvia4 _ _ _ ltac:(in_rules) A4 HM').
  apply (apply_rule_rewrites forvia3 _ _ _ ltac:(in_rules) P3 T3).
  apply (apply_rule_keeps forvia2 _ _ _ ltac:(in_rules) A2 HM).
  apply (apply_rule_keeps forvia1 _ _ _ ltac:(in_rules) A1 HM Hi).
Qed.

(** X4. When main.js holds the condition with [medical]
    ([... 'sensorSensei' || object.userData.type === 'medical']), the
    file the forvia script writes holds that condition with
    [|| object.userData.type === 'forviaCAR'] added; and when it holds
    the comment that ends in [sensorSensei, medical)], the file written
    holds the comment with [, forviaCAR] added. *)
Theorem X4_forvia_condition_and_comment : forall w buf,
  main_js w = Some buf ->
  exists out,
    Forvia.main w = (Ok tt, written w out Forvia.success) /\
    (Infix medical_condition buf -> Infix forvia_condition out) /\
    (Infix medical_comment buf -> Infix forvia_comment out).
Proof.
  intros w buf Hw. exists (forvia_all buf).
  split; [now apply forvia_main_run|].
  split; [apply forvia_condition_added | apply forvia_comment_line].
Qed.

Lemma X4_witness :
  exists out,
    Forvia.main (World (Some (medical_condition_line ++ medical_comment)) [])
    = (Ok tt,
       written (World (Some (medical_condition_line ++ medical_comment)) [])
         out Forvia.success) /\
    Infix forvia_condition out /\ Infix forvia_comment out.
Proof.
  destruct (X4_forvia_condition_and_comment
              (World (Some (medical_condition_line ++ medical_comment)) [])
              (medical_condition_line ++ medical_comment) eq_refl)
    as (out & E & Hc & Hl).
  exists out. split; [exact E|]. split.
  - apply Hc, Contains_lits, containsb_true. vm_compute. reflexivity.
  - apply Hl, Contains_lits, containsb_true. vm_compute. reflexivity.
Defined.

(* ================================================================= *)
(** ** The two scripts one after the other *)

Lemma medical_blocks_match_forvia :
  Matches (pattern_of forvia2) medical_block /\
  Matches (pattern_of forvia5) medical_reset /\
  Infix medical_condition medical_condition_line.
Proof.
  split; [|split].
  - apply fullmatch_sound. vm_compute. reflexivity.
  - apply fullmatch_sound. vm_compute. reflexivity.
  - apply Contains_lits, containsb_true. vm_compute. reflexivity.
Qed.

Lemma Infix_app_inv_r (x y s : text) : Infix (x ++ y) s -> Infix y s.
Proof.
  intros (a & b & ->). exists (a ++ x), b. now rewrite <- !app_assoc.
Qed.

Lemma Infix_app_inv_l (x y s : text) : Infix (x ++ y) s -> Infix x s.
Proof.
  intros (a & b & ->). exists a, (y ++ b). now rewrite <- !app_assoc.
Qed.








(* ================================================================= *)
(** ** The rules only insert *)

Lemma Subseq_refl x : Subseq x x.
Proof. induction x; constructor; assumption. Qed.

Lemma Subseq_nil_l y : Subseq [] y.
Proof. induction y; constructor; assumption. Qed.

Lemma Subseq_trans x y z : Subseq x y -> Subseq y z -> Subseq x z.
Proof.
  intros H1 H2. revert x H1.
  induction H2 as [|c y z _ IH|c y z _ IH]; intros x H1.
  - exact H1.
  - apply Subseq_skip, IH, H1.
  - inversion H1 as [|c' x' y' H|c' x' y' H]; subst.
    + apply Subseq_skip, IH, H.
    + apply Subseq_take, IH, H.
Qed.

Lemma Subseq_app x y x' y' :
  Subseq x y -> Subseq x' y' -> Subseq (x ++ x') (y ++ y').
Proof.
  intros H H'. induction H; simpl; [exact H' | |];
    constructor; assumption.
Qed.

Lemma Subseq_length x y : Subseq x y -> length x <= length y.
Proof. induction 1; simpl; lia. Qed.

Lemma subseqb_sound : forall y x, subseqb x y = true -> Subseq x y.
Proof.
  induction y as [|d y IH]; intros [|c x] H; simpl in H;
    try discriminate; try apply Subseq_nil_l.
  destruct (N.eqb_spec c d) as [->|_].
  - apply Subseq_take, IH, H.
  - apply Subseq_skip, IH, H.
Qed.

(** The matches of a cut are matches. *)
Lemma Scan_matches p s segs tail :
  Scan p s segs tail -> Forall (fun gm => Matches p (snd gm)) segs.
Proof.
  induction 1 as [tail H|gap m rest segs tail Hg Hm _ IH]; constructor;
    [|exact IH].
  destruct (match_here_sound _ _ Hm) as [_ HM].
  now rewrite firstn_length_app in HM.
Qed.

(** A cut without match is a text without match. *)
Lemma Scan_nil p s tail : Scan p s [] tail -> NoMatch p s.
Proof. intros H. inversion H; subst. assumption. Qed.

(** When every replacement holds its match and is [g] characters
    longer, the output holds the input and is [g] characters longer per
    match. *)
Lemma replaced_grows p t g s segs tail :
  (forall m, Matches p m ->
             Subseq m (expand t m) /\ length (expand t m) = length m + g) ->
  Scan p s segs tail ->
  Subseq s (replaced t segs tail) /\
  length (replaced t segs tail) = length s + length segs * g.
Proof.
  intros Hexp HS. pose proof (Scan_matches _ _ _ _ HS) as HM.
  rewrite (Scan_uncut _ _ _ _ HS). clear HS. unfold uncut, replaced.
  induction HM as [|[gap m] segs Hm _ [IH1 IH2]]; simpl.
  - split; [apply Subseq_refl | lia].
  - destruct (Hexp m Hm) as [H1 H2]. rewrite <- !app_assoc. split.
    + apply Subseq_app; [apply Subseq_refl|]. now apply Subseq_app.
    + rewrite !length_app in *. lia.
Qed.

Lemma rule_expand pr m :
  In pr all_rules -> Matches (pattern_of pr) m ->
  Subseq m (expand (tpl (compiled pr)) m) /\
  length (expand (tpl (compiled pr)) m) = length m + gain pr.
Proof.
  intros Hin HM.
  destruct (rule_shape pr Hin) as [[HT Hg]|(HP & HT & Hl & Hs)].
  - rewrite HT, expand_insert, Hg. split; [|now rewrite length_app].
    rewrite <- (app_nil_r m) at 1.
    apply Subseq_app; [apply Subseq_refl | apply Subseq_nil_l].
  - rewrite HP in HM. apply Matches_lits_inv in HM. subst m.
    rewrite HT, expand_literal. split; [now apply subseqb_sound | exact Hl].
Qed.

(** The gains: 38 characters for the medical condition, 113 for the
    medical block and so on. *)
Lemma gains :
  map gain Medical.rules = [38; 113; 145; 9] /\
  map gain Forvia.rules = [40; 119; 11; 136; 151].
Proof. split; vm_compute; reflexivity. Qed.

Lemma gain_pos pr : In pr all_rules -> 0 < gain pr.
Proof.
  intros H. repeat (destruct H as [<-|H]; [vm_compute; lia|]). destruct H.
Qed.

Lemma apply_rule_grows pr s segs tail :
  In pr all_rules -> Scan (pattern_of pr) s segs tail ->
  Subseq s (apply_rule (compiled pr) s) /\
  length (apply_rule (compiled pr) s) = length s + length segs * gain pr.
Proof.
  intros Hin HS. rewrite (apply_rule_Scan _ _ _ _ Hin HS).
  apply replaced_grows with (pattern_of pr); [|exact HS].
  intros m. now apply rule_expand.
Qed.

Lemma apply_rule_Subseq pr s :
  In pr all_rules -> Subseq s (apply_rule (compiled pr) s).
Proof.
  intros Hin.
  destruct (Scan_total (all_rules_nonempty pr Hin) s) as (segs & tail & HS).
  now apply (apply_rule_grows pr s segs tail).
Qed.

Lemma apply_rule_longer pr s :
  In pr all_rules -> Contains (pattern_of pr) s ->
  length s < length (apply_rule (compiled pr) s).
Proof.
  intros Hin HC.
  destruct (Scan_total (all_rules_nonempty pr Hin) s) as (segs & tail & HS).
  destruct (apply_rule_grows pr s segs tail Hin HS) as [_ ->].
  pose proof (gain_pos pr Hin). destruct segs as [|gm segs]; [|simpl; lia].
  exfalso. apply Scan_nil in HS. now apply NoMatch_iff in HS.
Qed.

Lemma medical_all_Subseq s : Subseq s (medical_all s).
Proof.
  unfold medical_all.
  eapply Subseq_trans; [|apply apply_rule_Subseq; in_rules].
  eapply Subseq_trans; [|apply apply_rule_Subseq; in_rules].
  eapply Subseq_trans; [|apply apply_rule_Subseq; in_rules].
  apply apply_rule_Subseq; in_rules.
Qed.

Lemma forvia_all_Subseq s : Subseq s (forvia_all s).
Proof.
  unfold forvia_all.
  eapply Subseq_trans; [|apply apply_rule_Subseq; in_rules].
  eapply Subseq_trans; [|apply apply_rule_Subseq; in_rules].
  eapply Subseq_trans; [|apply apply_rule_Subseq; in_rules].
  eapply Subseq_trans; [|apply apply_rule_Subseq; in_rules].
  apply apply_rule_Subseq; in_rules.
Qed.

(** A list of rules of the scripts, applied in order, only inserts; and
    it makes the text longer as soon as one of the patterns matches the
    input. *)
Lemma fold_rules_Subseq : forall rules s,
  (forall pr, In pr rules -> In pr all_rules) ->
  Subseq s (fold_left (fun c pr => apply_rule (compiled pr) c) rules s).
Proof.
  induction rules as [|pr rules IH]; intros s Hin; [apply Subseq_refl|].
  cbn [fold_left].
  apply Subseq_trans with (apply_rule (compiled pr) s).
  - apply apply_rule_Subseq, Hin. now left.
  - apply IH. intros pr' H. apply Hin. now right.
Qed.

Lemma fold_rules_longer : forall rules s,
  (forall pr, In pr rules -> In pr all_rules) ->
  Exists (fun pr => Contains (pattern_of pr) s) rules ->
  length s < length (fold_left (fun c pr => apply_rule (compiled pr) c) rules s).
Proof.
  induction rules as [|pr rules IH]; intros s Hin Hex; [inversion Hex|].
  cbn [fold_left].
  assert (Hpr : In pr all_rules) by (apply Hin; now left).
  assert (Hrest : forall pr', In pr' rules -> In pr' all_rules)
    by (intros pr' H; apply Hin; now right).
  destruct (Scan_total (all_rules_nonempty pr Hpr) s) as (segs & tail & HS).
  destruct segs as [|gm segs].
  - (* this rule does not match: the text goes on as it is *)
    assert (Hno : ~ Contains (pattern_of pr) s)
      by (apply NoMatch_iff; exact (Scan_nil _ _ _ HS)).
    rewrite (apply_rule_no_match pr s Hpr Hno). apply IH; [exact Hrest|].
    inversion Hex as [? ? H|? ? H]; subst; [contradiction | exact H].
  - destruct (apply_rule_grows pr s _ _ Hpr HS) as [_ Hl].
    pose proof (gain_pos pr Hpr) as Hg.
    pose proof (Subseq_length _ _
                  (fold_rules_Subseq rules (apply_rule (compiled pr) s) Hrest)).
    simpl length in Hl. lia.
Qed.

(** X7. The scripts only insert: the file a run writes holds every
    character of the file it read, in the same order; nothing is removed
    or reordered. *)
Theorem X7_scripts_only_insert : forall w buf,
  main_js w = Some buf ->
  (exists out,
      Medical.main w = (Ok tt, written w out Medical.success) /\
      Subseq buf out) /\
  (exists out,
      Forvia.main w = (Ok tt, written w out Forvia.success) /\
      Subseq buf out).
Proof.
  intros w buf Hw. split.
  - exists (medical_all buf). split; [now apply medical_main_run|].
    apply (fold_rules_Subseq Medical.rules buf in_medical).
  - exists (forvia_all buf). split; [now apply forvia_main_run|].
    apply (fold_rules_Subseq Forvia.rules buf in_forvia).
Qed.

Lemma X7_witness :
  (exists out,
      Medical.main (World (Some full_before_medical) [])
      = (Ok tt, written (World (Some full_before_medical) []) out
                  Medical.success) /\
      Subseq full_before_medical out) /\
  (exists out,
      Forvia.main (World (Some full_before_medical) [])
      = (Ok tt, written (World (Some full_before_medical) []) out
                  Forvia.success) /\
      Subseq full_before_medical out).
Proof.
  exact (X7_scripts_only_insert (World (Some full_before_medical) [])
           full_before_medical eq_refl).
Defined.

(** X8. One [re.sub] call of either script, on a buffer that the scan
    cuts into N matches, returns a buffer that is longer by exactly N
    times the rule's gain (38 characters for medical rule 1, 113 for
    medical rule 2, ...), and the gain is positive; so the call returns
    its input unchanged exactly when the pattern matches nowhere. *)
Theorem X8_rule_adds_its_gain_per_match : forall pr s segs tail,
  In pr all_rules ->
  Scan (pattern_of pr) s segs tail ->
  exists out,
    re_sub (fst pr) (snd pr) s = Ok out /\
    length out = length s + length segs * gain pr /\
    0 < gain pr /\
    (out = s <-> ~ Contains (pattern_of pr) s).
Proof.
  intros pr s segs tail Hin HS. exists (apply_rule (compiled pr) s).
  split; [now apply re_sub_compiled|].
  destruct (apply_rule_grows pr s segs tail Hin HS) as [_ Hl].
  split; [exact Hl|]. split; [now apply gain_pos|]. split.
  - intros E HC. pose proof (apply_rule_longer pr s Hin HC) as H.
    rewrite E in H. lia.
  - now apply apply_rule_no_match.
Qed.

Lemma X8_witness :
  exists out,
    re_sub Medical.pattern3 Medical.replacement3 two_resets = Ok out /\
    length out = length two_resets + length two_resets_cut * gain medical3 /\
    0 < gain medical3 /\
    (out = two_resets <-> ~ Contains (pattern_of medical3) two_resets).
Proof.
  apply (X8_rule_adds_its_gain_per_match medical3 two_resets two_resets_cut
           (lines ["    }"%string])).
  - in_rules.
  - apply scan_Scan; [vm_compute; discriminate | vm_compute; reflexivity].
Defined.

(** Whether a pattern matches somewhere can be told from the scan. *)
Lemma Contains_dec pr s :
  In pr all_rules ->
  Contains (pattern_of pr) s \/ ~ Contains (pattern_of pr) s.
Proof.
  intros Hin.
  destruct (Scan_total (all_rules_nonempty pr Hin) s)
    as ([|gm segs] & tail & HS).
  - right. apply NoMatch_iff. exact (Scan_nil _ _ _ HS).
  - left. inversion HS as [|gap m rest ? ? Hg Hm HS']; subst.
    destruct (match_here_sound _ _ Hm) as [_ HM].
    rewrite firstn_length_app in HM. exists m. split; [exact HM|].
    now exists gap, rest.
Qed.

Lemma rules_match_or_not : forall rules s,
  (forall pr, In pr rules -> In pr all_rules) ->
  Forall (fun pr => ~ Contains (pattern_of pr) s) rules \/
  Exists (fun pr => Contains (pattern_of pr) s) rules.
Proof.
  induction rules as [|pr rules IH]; intros s Hin; [left; constructor|].
  destruct (Contains_dec pr s (Hin pr (or_introl eq_refl))) as [HC|HC].
  - right. now apply Exists_cons_hd.
  - destruct (IH s) as [HF|HE].
    + intros pr' H. apply Hin. now right.
    + left. now constructor.
    + right. now apply Exists_cons_tl.
Qed.

Lemma fold_rules_fixed : forall rules s,
  (forall pr, In pr rules -> In pr all_rules) ->
  let out := fold_left (fun c pr => apply_rule (compiled pr) c) rules s in
  (out = s <-> Forall (fun pr => ~ Contains (pattern_of pr) s) rules) /\
  (out <> s -> length s < length out).
Proof.
  intros rules s Hin out.
  assert (Hno : Forall (fun pr => ~ Contains (pattern_of pr) s) rules ->
                out = s).
  { intros HF. pose proof (run_rules_no_match rules s Hin HF) as E.
    rewrite run_rules_ok in E by exact Hin. now injection E. }
  pose proof (fold_rules_longer rules s Hin) as Hyes. fold out in Hyes.
  destruct (rules_match_or_not rules s Hin) as [HF|HE].
  - split; [split; [intros _; exact HF | exact Hno]|].
    intros Hne. exfalso. now apply Hne, Hno.
  - pose proof (Hyes HE) as Hlt. split; [split; [|exact Hno]|].
    + intros E. rewrite E in Hlt. lia.
    + intros _. exact Hlt.
Qed.

(** X9. A run of either script writes back exactly what it read if and
    only if none of the script's patterns matches the file; when one
    does, the file written is strictly longer than the file read. *)
Theorem X9_file_unchanged_iff_no_pattern_matches : forall w buf,
  main_js w = Some buf ->
  (exists out,
      Medical.main w = (Ok tt, written w out Medical.success) /\
      (out = buf <->
       Forall (fun pr => ~ Contains (pattern_of pr) buf) Medical.rules) /\
      (out <> buf -> length buf < length out)) /\
  (exists out,
      Forvia.main w = (Ok tt, written w out Forvia.success) /\
      (out = buf <->
       Forall (fun pr => ~ Contains (pattern_of pr) buf) Forvia.rules) /\
      (out <> buf -> length buf < length out)).
Proof.
  intros w buf Hw. split.
  - exists (medical_all buf). split; [now apply medical_main_run|].
    exact (fold_rules_fixed Medical.rules buf in_medical).
  - exists (forvia_all buf). split; [now apply forvia_main_run|].
    exact (fold_rules_fixed Forvia.rules buf in_forvia).
Qed.

Lemma X9_witness :
  (exists out,
      Medical.main (World (Some plain_js) [])
      = (Ok tt, written (World (Some plain_js) []) out Medical.success) /\
      (out = plain_js <->
       Forall (fun pr => ~ Contains (pattern_of pr) plain_js) Medical.rules) /\
      (out <> plain_js -> length plain_js < length out)) /\
  (exists out,
      Forvia.main (World (Some plain_js) [])
      = (Ok tt, written (World (Some plain_js) []) out Forvia.success) /\
      (out = plain_js <->
       Forall (fun pr => ~ Contains (pattern_of pr) plain_js) Forvia.rules) /\
      (out <> plain_js -> length plain_js < length out)).
Proof.
  exact (X9_file_unchanged_iff_no_pattern_matches
           (World (Some plain_js) []) plain_js eq_refl).
Defined.

(* ================================================================= *)
(** ** The order of the two scripts *)

Lemma forvia_all_fold s :
  forvia_all s
  = fold_left (fun c pr => apply_rule (compiled pr) c) Forvia.rules s.
Proof. reflexivity. Qed.

Lemma forvia_after_medical_longer buf :
  Infix condition_line buf ->
  length (medical_all buf) < length (forvia_all (medical_all buf)).
Proof.
  intros Hi. pose proof (medical_condition_whole buf Hi) as H.
  revert H. generalize (medical_all buf). intros s H.
  rewrite forvia_all_fold.
  apply (fold_rules_longer Forvia.rules s in_forvia).
  apply Exists_cons_hd. change (Forvia.pattern1, Forvia.replacement1) with forvia1.
  destruct rewriting_patterns as (_ & _ & _ & _ & P1 & _). rewrite P1.
  apply Contains_lits.
  destruct medical_blocks_match_forvia as (_ & _ & Mc).
  apply Infix_trans with medical_condition_line; [exact Mc | exact H].
Qed.

(** X6. In the other order the forvia run is lost: on a main.js without
    the word [medical], the forvia script changes nothing, so the forvia
    script followed by the medical script leaves the same file as the
    medical script alone; and when main.js holds the old condition line
    this file differs from the one the two scripts leave in the order
    medical, forvia. *)
Theorem X6_forvia_first_is_lost : forall w buf,
  main_js w = Some buf ->
  ~ Infix medical_word buf ->
  Forvia.main w = (Ok tt, written w buf Forvia.success) /\
  main_js (snd (Medical.main (snd (Forvia.main w))))
  = main_js (snd (Medical.main w)) /\
  (Infix condition_line buf ->
   main_js (snd (Forvia.main (snd (Medical.main w))))
   <> main_js (snd (Medical.main (snd (Forvia.main w))))).
Proof.
  intros w buf Hw Hno.
  assert (HF : Forall (fun pr => ~ Contains (pattern_of pr) buf) Forvia.rules).
  { apply Forall_forall. intros pr Hin (m & HM & Hi). apply Hno.
    apply Infix_trans with m; [|exact Hi].
    now apply forvia_patterns_need_medical with pr. }
  assert (E : Forvia.main w = (Ok tt, written w buf Forvia.success)).
  { rewrite forvia_main_patcher, patcher_run, Hw.
    now rewrite (run_rules_no_match _ _ in_forvia HF). }
  split; [exact E|]. rewrite E. cbn [snd].
  rewrite (medical_main_run (written w buf Forvia.success) buf eq_refl).
  rewrite (medical_main_run w buf Hw). cbn [snd].
  split; [reflexivity|]. intros Hi.
  rewrite (forvia_main_run (written w (medical_all buf) Medical.success)
             (medical_all buf) eq_refl).
  cbn [snd written main_js]. intros Heq. injection Heq as Heq.
  pose proof (forvia_after_medical_longer buf Hi) as Hlt.
  rewrite Heq in Hlt. lia.
Qed.

Lemma X6_witness :
  Forvia.main (World (Some before_medical) [])
  = (Ok tt, written (World (Some before_medical) []) before_medical
              Forvia.success) /\
  main_js (snd (Medical.main (snd (Forvia.main
                                     (World (Some before_medical) [])))))
  = main_js (snd (Medical.main (World (Some before_medical) []))) /\
  main_js (snd (Forvia.main (snd (Medical.main
                                    (World (Some before_medical) [])))))
  <> main_js (snd (Medical.main (snd (Forvia.main
                                        (World (Some before_medical) []))))).
Proof.
  destruct (X6_forvia_first_is_lost (World (Some before_medical) [])
              before_medical eq_refl) as (E & E2 & Hd).
  - intros Hi. apply Contains_lits in Hi. revert Hi.
    apply containsb_false; [vm_compute; discriminate | vm_compute; reflexivity].
  - split; [exact E|]. split; [exact E2|]. apply Hd.
    apply Contains_lits, containsb_true. vm_compute. reflexivity.
Defined.

(* ================================================================= *)
(** ** No text makes a rule raise *)

(** X10. No text makes a [re.sub] call of the scripts raise: every
    pattern compiles and every template only names the group its
    pattern has.  So each of the nine calls returns normally on every
    buffer, and so does every sequence of them, the four calls of the
    medical script and the five of the forvia script among them. *)
Theorem X10_re_sub_never_raises : forall rules buf,
  (forall pr, In pr rules -> In pr all_rules) ->
  (exists out, run_rules rules buf = Ok out) /\
  (forall pr, In pr rules ->
              exists out, re_sub (fst pr) (snd pr) buf = Ok out) /\
  (exists out, run_rules Medical.rules buf = Ok out) /\
  (exists out, run_rules Forvia.rules buf = Ok out).
Proof.
  intros rules buf Hin. split; [|split; [|split]].
  - rewrite run_rules_ok by exact Hin. now eexists.
  - intros pr H. rewrite re_sub_compiled by (now apply Hin). now eexists.
  - rewrite run_medical. now eexists.
  - rewrite run_forvia. now eexists.
Qed.

Lemma X10_witness :
  (exists out, run_rules all_rules plain_js = Ok out) /\
  (forall pr, In pr all_rules ->
              exists out, re_sub (fst pr) (snd pr) plain_js = Ok out) /\
  (exists out, run_rules Medical.rules plain_js = Ok out) /\
  (exists out, run_rules Forvia.rules plain_js = Ok out).
Proof.
  apply (X10_re_sub_never_raises all_rules plain_js). intros pr H. exact H.
Defined.

(* ================================================================= *)
(** ** Run after run *)

Lemma medical_keeps_sensor_block a :
  Contains (pattern_of medical2) a ->
  Contains (pattern_of medical2) (medical_all a) /\
  length a < length (medical_all a).
Proof.
  intros HC. split.
  - destruct HC as (m & HM & Hi). exists m. split; [exact HM|].
    apply Infix_app_inv_l with medical_block. now apply medical_modal_block.
  - apply (fold_rules_longer Medical.rules a in_medical).
    apply Exists_cons_tl, Exists_cons_hd. exact HC.
Qed.

Lemma forvia_keeps_medical_block a :
  Contains (pattern_of forvia2) a ->
  Contains (pattern_of forvia2) (forvia_all a) /\
  length a < length (forvia_all a).
Proof.
  intros HC. split.
  - destruct HC as (m & HM & Hi). exists m. split; [exact HM|].
    apply Infix_app_inv_l with forvia_block. now apply forvia_modal_block.
  - apply (fold_rules_longer Forvia.rules a in_forvia).
    apply Exists_cons_tl, Exists_cons_hd. exact HC.
Qed.

Lemma rerun_medical w buf :
  main_js w = Some buf -> Contains (pattern_of medical2) buf ->
  forall n, exists a,
    main_js (rerun Medical.main n w) = Some a /\
    Contains (pattern_of medical2) a.
Proof.
  intros Hw HC. induction n as [|n (a & Ha & HCa)]; [now exists buf|].
  exists (medical_all a). cbn [rerun].
  rewrite (medical_main_run _ a Ha). split; [reflexivity|].
  now apply medical_keeps_sensor_block.
Qed.

Lemma rerun_forvia w buf :
  main_js w = Some buf -> Contains (pattern_of forvia2) buf ->
  forall n, exists a,
    main_js (rerun Forvia.main n w) = Some a /\
    Contains (pattern_of forvia2) a.
Proof.
  intros Hw HC. induction n as [|n (a & Ha & HCa)]; [now exists buf|].
  exists (forvia_all a). cbn [rerun].
  rewrite (forvia_main_run _ a Ha). split; [reflexivity|].
  now apply forvia_keeps_medical_block.
Qed.

(** X11. A script never settles on a file it once matched: when main.js
    holds a sensorSensei modal block, every further run of the medical
    script makes the file strictly longer, however often it is run; and
    the same for the forvia script on a file with a medical modal
    block. *)
Theorem X11_every_rerun_lengthens : forall w buf,
  main_js w = Some buf ->
  (Contains (pattern_of medical2) buf ->
   forall n, exists a b,
     main_js (rerun Medical.main n w) = Some a /\
     main_js (rerun Medical.main (S n) w) = Some b /\
     length a < length b) /\
  (Contains (pattern_of forvia2) buf ->
   forall n, exists a b,
     main_js (rerun Forvia.main n w) = Some a /\
     main_js (rerun Forvia.main (S n) w) = Some b /\
     length a < length b).
Proof.
  intros w buf Hw. split; intros HC n.
  - destruct (rerun_medical w buf Hw HC n) as (a & Ha & HCa).
    exists a, (medical_all a). split; [exact Ha|]. cbn [rerun].
    rewrite (medical_main_run _ a Ha). split; [reflexivity|].
    now apply medical_keeps_sensor_block.
  - destruct (rerun_forvia w buf Hw HC n) as (a & Ha & HCa).
    exists a, (forvia_all a). split; [exact Ha|]. cbn [rerun].
    rewrite (forvia_main_run _ a Ha). split; [reflexivity|].
    now apply forvia_keeps_medical_block.
Qed.

Lemma X11_witness :
  exists a b,
    main_js (rerun Medical.main 2 (World (Some sensor_block) [])) = Some a /\
    main_js (rerun Medical.main 3 (World (Some sensor_block) [])) = Some b /\
    length a < length b.
Proof.
  destruct (X11_every_rerun_lengthens (World (Some sensor_block) [])
              sensor_block eq_refl) as [H _].
  apply H. apply containsb_true. vm_compute. reflexivity.
Defined.

(* ================================================================= *)
(** ** What the medical patterns need *)

Lemma medical_patterns_need_sensor pr m :
  In pr Medical.rules -> Matches (pattern_of pr) m -> Infix sensor_word m.
Proof.
  intros Hin. apply has_lits_Infix. revert Hin.
  intros H. repeat (destruct H as [<-|H]; [vm_compute; reflexivity|]).
  destruct H.
Qed.

(** X12. Every text that a pattern of the medical script matches holds
    the word [sensorSensei]; so the medical script writes a main.js
    without that word back exactly as it read it. *)
Theorem X12_medical_needs_sensorSensei_text :
  (forall pr m,
      In pr Medical.rules -> Matches (pattern_of pr) m ->
      Infix sensor_word m) /\
  (forall w buf,
      main_js w = Some buf ->
      ~ Infix sensor_word buf ->
      Medical.main w = (Ok tt, written w buf Medical.success)).
Proof.
  split; [exact medical_patterns_need_sensor|].
  intros w buf Hw Hno.
  assert (HF : Forall (fun pr => ~ Contains (pattern_of pr) buf) Medical.rules).
  { apply Forall_forall. intros pr Hin (m & HM & Hi). apply Hno.
    apply Infix_trans with m; [|exact Hi].
    now apply medical_patterns_need_sensor with pr. }
  rewrite medical_main_patcher, patcher_run, Hw.
  now rewrite (run_rules_no_match _ _ in_medical HF).
Qed.

Lemma X12_witness :
  Medical.main (World (Some (medical_block ++ medical_reset)) [])
  = (Ok tt, written (World (Some (medical_block ++ medical_reset)) [])
              (medical_block ++ medical_reset) Medical.success).
Proof.
  destruct X12_medical_needs_sensorSensei_text as [_ H].
  apply (H (World (Some (medical_block ++ medical_reset)) [])
           (medical_block ++ medical_reset) eq_refl).
  intros Hi. apply Contains_lits in Hi. revert Hi.
  apply containsb_false; [vm_compute; discriminate | vm_compute; reflexivity].
Defined.
